(** * Matchmaking broker, signaling relay and client-side negotiation

    A shallow embedding of the socket server (waiting queue, relay) and of
    the two client-side providers (SocketContext, VideoContext), with the
    properties of the pairing and negotiation protocol proved over them.

    Conventions.  Every socket event handler runs to completion before the
    next event is handled; a handler is a function from the state it reads
    to the state it leaves, together with the messages it emitted.  Socket
    objects are identified with their [id]; the [connected] flag of a
    socket object lives in the state, so that a queue entry and the socket
    it refers to share it. *)

From Stdlib Require Import String ZArith List Lia.
From stdpp Require Import base gmap strings list fin_maps.

#[local] Set Warnings "-clear-no-such-hyp".

Open Scope string_scope.
Open Scope list_scope.
Open Scope Z_scope.

(** ** JavaScript array primitives used on the waiting queue *)

Module JsArray.

(** [Array.prototype.findIndex]: first index whose element satisfies the
    predicate, or [-1]. *)
Fixpoint findIndex_from {A} (i : Z) (p : A → bool) (l : list A) : Z :=
  match l with
  | [] => -1
  | x :: l' => if p x then i else findIndex_from (i + 1) p l'
  end.

Definition findIndex {A} (p : A → bool) (l : list A) : Z :=
  findIndex_from 0 p l.

(** [Array.prototype.splice(start, 1)]: a negative [start] counts from the
    end of the array and is clamped at [0]; a [start] past the end removes
    nothing. *)
Definition splice1 {A} (start : Z) (l : list A) : list A :=
  let len := Z.of_nat (length l) in
  let s := if start <? 0 then Z.max (len + start) 0 else Z.min start len in
  take (Z.to_nat s) l ++ drop (S (Z.to_nat s)) l.

(** [Array.prototype.shift]: the first element ([None] for [undefined])
    and the remaining array. *)
Definition shift {A} (l : list A) : option A * list A :=
  match l with
  | [] => (None, [])
  | x :: l' => (Some x, l')
  end.

(** [Array.prototype.push] of one element. *)
Definition push {A} (l : list A) (x : A) : list A := l ++ [x].

End JsArray.

(** ** The server: waiting queue and relay *)

Module Server.
Import JsArray.

Abbreviation SocketId := string (only parsing).

(** A JSON value carried opaquely by the relay. *)
Abbreviation Json := string (only parsing).

(** The three relayed negotiation events. *)
Inductive RelayEvent := webrtc_offer | webrtc_answer | webrtc_candidate.

(** The name of the payload field of each relayed event. *)
Definition payload_field (ev : RelayEvent) : string :=
  match ev with
  | webrtc_offer => "offer"
  | webrtc_answer => "answer"
  | webrtc_candidate => "candidate"
  end.

(** Data of a message sent by the server. *)
Inductive Data :=
| match_found (peerId : SocketId)
| match_cancelled
| relayed (ev : RelayEvent) (userId : SocketId) (payload : option Json).

(** An emission of a handler: [socket.emit] / [peer.emit] address one
    socket; [socket.to(room).emit] broadcasts to a room, the emitting
    socket excepted. *)
Inductive Emit :=
| to_socket (target : SocketId) (d : Data)
| to_room (sender : SocketId) (room : option string) (d : Data).

Record State := mkState {
  waitingQueue : list SocketId;
  disconnected : gset SocketId
}.

Definition init : State := mkState [] ∅.

(** [s.connected] of the socket object with id [s]. *)
Definition connected (st : State) (s : SocketId) : bool :=
  bool_decide (s ∉ disconnected st).

Definition set_queue (st : State) (q : list SocketId) : State :=
  mkState q (disconnected st).

(** [socket.on('match:search', ...)] *)
Definition match_search (socket : SocketId) (st : State) : State * list Emit :=
  let existingIndex := findIndex (λ s, String.eqb s socket) (waitingQueue st) in
  let q := if negb (existingIndex =? -1)
           then splice1 existingIndex (waitingQueue st)
           else waitingQueue st in
  if (Z.of_nat (length q) >? 0) then
    match shift q with
    | (Some peer, q') =>
        if connected st peer then
          (set_queue st q',
           [to_socket socket (match_found peer);
            to_socket peer (match_found socket)])
        else
          (set_queue st (push q' socket), [])
    | (None, q') => (set_queue st q', [])
    end
  else
    (set_queue st (push q socket), []).

(** [socket.on('match:cancel', ...)] *)
Definition match_cancel (socket : SocketId) (st : State) : State * list Emit :=
  let index := findIndex (λ s, String.eqb s socket) (waitingQueue st) in
  if negb (index =? -1) then
    (set_queue st (splice1 index (waitingQueue st)),
     [to_socket socket match_cancelled])
  else (st, []).

(** [socket.on('webrtc:offer' | 'webrtc:answer' | 'webrtc:candidate', ...)]:
    the handler destructures the target [userId] and the payload field out
    of the inbound object and emits a fresh object to the target's room. *)
Definition relay (ev : RelayEvent) (socket : SocketId)
    (data : gmap string Json) (st : State) : State * list Emit :=
  let userId := data !! "userId" in
  let payload := data !! payload_field ev in
  (st, [to_room socket userId (relayed ev socket payload)]).

(** [socket.on('disconnect', ...)]; the socket's [connected] flag is
    already [false] when the listener runs. *)
Definition disconnect (socket : SocketId) (st : State) : State * list Emit :=
  let st := mkState (waitingQueue st) ({[socket]} ∪ disconnected st) in
  let index := findIndex (λ s, String.eqb s socket) (waitingQueue st) in
  if negb (index =? -1) then
    (set_queue st (splice1 index (waitingQueue st)), [])
  else (st, []).

(** Delivery of an emission by the socket layer, [sockets] being the ids of
    the sockets connected at that time: from its connection to its
    disconnect a socket is the only member of the room named by its own id,
    and the handlers join no other room, so that the room of an id that is
    not connected, or never was, is empty; a broadcast never reaches the
    emitting socket; nothing is queued for absent sockets. *)
Definition deliver (sockets : gset SocketId) (e : Emit)
    : list (SocketId * Data) :=
  match e with
  | to_socket t d => if bool_decide (t ∈ sockets) then [(t, d)] else []
  | to_room sender (Some room) d =>
      if bool_decide (room ∈ sockets) && negb (String.eqb room sender)
      then [(room, d)] else []
  | to_room _ None _ => []
  end.

(** *** Event sequences *)

Inductive Event :=
| Search (p : SocketId)
| Cancel (p : SocketId)
| Disconnect (p : SocketId).

Definition subject (e : Event) : SocketId :=
  match e with Search p | Cancel p | Disconnect p => p end.

Definition handle (e : Event) (st : State) : State * list Emit :=
  match e with
  | Search p => match_search p st
  | Cancel p => match_cancel p st
  | Disconnect p => disconnect p st
  end.

(** Runs a sequence of events, keeping for each event what it emitted. *)
Fixpoint run (st : State) (evs : list Event)
    : State * list (Event * list Emit) :=
  match evs with
  | [] => (st, [])
  | e :: evs' =>
      let '(st1, out) := handle e st in
      let '(st2, log) := run st1 evs' in
      (st2, (e, out) :: log)
  end.

(** A socket raises no event once it has disconnected. *)
Fixpoint well_formed (st : State) (evs : list Event) : Prop :=
  match evs with
  | [] => True
  | e :: evs' =>
      connected st (subject e) = true ∧ well_formed (handle e st).1 evs'
  end.

(** *** Who is currently waiting, read off the history alone *)

(** [p] was told of a match by this emission. *)
Definition notifies_match (p : SocketId) (e : Emit) : bool :=
  match e with
  | to_socket t (match_found _) => String.eqb t p
  | _ => false
  end.

(** The waiting status of [p] after one more logged event: a search that
    pairs [p] ends the wait, a search by [p] that pairs nobody starts it,
    a cancel or disconnect of [p] ends it. *)
Definition waiting_after (p : SocketId) (w : bool)
    (entry : Event * list Emit) : bool :=
  match entry with
  | (Search s, out) =>
      if existsb (notifies_match p) out then false
      else if String.eqb s p then true else w
  | (Cancel s, _) | (Disconnect s, _) =>
      if String.eqb s p then false else w
  end.

Definition currently_waiting (p : SocketId)
    (log : list (Event * list Emit)) : bool :=
  fold_left (waiting_after p) log false.

End Server.

(** ** The peer transport driven by the clients

    The browser's [RTCPeerConnection], as far as the clients drive it: the
    signaling state machine of the WebRTC API with its pending and current
    descriptions, the rejection of calls made in a state that does not
    allow them, and [close].  A rejected promise or a thrown exception is
    [None].  [applied] is the history of the calls that took effect, oldest
    first. *)

Module WebRTC.

Inductive RTCSignalingState :=
| stable | have_local_offer | have_remote_offer
| have_local_pranswer | have_remote_pranswer | closed.

Inductive RTCPeerConnectionState :=
| conn_new | conn_connecting | conn_connected
| conn_disconnected | conn_failed | conn_closed.

Inductive RTCSdpType := offer | pranswer | answer | rollback.

Record RTCSessionDescriptionInit := mkSdp {
  sdp_type : option RTCSdpType;
  sdp : string
}.

Record RTCIceCandidateInit := mkCandidate {
  candidate : string;
  sdpMid : option string;
  sdpMLineIndex : option N
}.

Inductive Applied :=
| SetLocal (d : RTCSessionDescriptionInit)
| SetRemote (d : RTCSessionDescriptionInit)
| AddCandidate (c : RTCIceCandidateInit)
| Close.

Record RTCPeerConnection := mkPC {
  signalingState : RTCSignalingState;
  connectionState : RTCPeerConnectionState;
  currentLocalDescription : option RTCSessionDescriptionInit;
  pendingLocalDescription : option RTCSessionDescriptionInit;
  currentRemoteDescription : option RTCSessionDescriptionInit;
  pendingRemoteDescription : option RTCSessionDescriptionInit;
  applied : list Applied
}.

#[global] Instance RTCSignalingState_eq_dec : EqDecision RTCSignalingState.
Proof. solve_decision. Defined.
#[global] Instance RTCPeerConnectionState_eq_dec :
  EqDecision RTCPeerConnectionState.
Proof. solve_decision. Defined.
#[global] Instance RTCSdpType_eq_dec : EqDecision RTCSdpType.
Proof. solve_decision. Defined.

(** [new RTCPeerConnection(...)] *)
Definition new_connection : RTCPeerConnection :=
  mkPC stable conn_new None None None None [].

(** [pc.localDescription] and [pc.remoteDescription]: the pending
    description if there is one, the current one otherwise. *)
Definition localDescription (pc : RTCPeerConnection) :=
  match pendingLocalDescription pc with
  | Some d => Some d
  | None => currentLocalDescription pc
  end.

Definition remoteDescription (pc : RTCPeerConnection) :=
  match pendingRemoteDescription pc with
  | Some d => Some d
  | None => currentRemoteDescription pc
  end.

(** The description a connection generates for itself. *)
Definition generated (ty : RTCSdpType) : RTCSessionDescriptionInit :=
  mkSdp (Some ty) "v=0".

Definition createOffer (pc : RTCPeerConnection)
    : option RTCSessionDescriptionInit :=
  match signalingState pc with
  | stable | have_local_offer => Some (generated offer)
  | _ => None
  end.

Definition createAnswer (pc : RTCPeerConnection)
    : option RTCSessionDescriptionInit :=
  match signalingState pc with
  | have_remote_offer | have_local_pranswer => Some (generated answer)
  | _ => None
  end.

Definition setLocalDescription (d : RTCSessionDescriptionInit)
    (pc : RTCPeerConnection) : option RTCPeerConnection :=
  let log := applied pc ++ [SetLocal d] in
  match sdp_type d, signalingState pc with
  | Some offer, (stable | have_local_offer) =>
      Some (mkPC have_local_offer (connectionState pc)
              (currentLocalDescription pc) (Some d)
              (currentRemoteDescription pc) (pendingRemoteDescription pc) log)
  | Some pranswer, (have_remote_offer | have_local_pranswer) =>
      Some (mkPC have_local_pranswer (connectionState pc)
              (currentLocalDescription pc) (Some d)
              (currentRemoteDescription pc) (pendingRemoteDescription pc) log)
  | Some answer, (have_remote_offer | have_local_pranswer) =>
      Some (mkPC stable (connectionState pc)
              (Some d) None (pendingRemoteDescription pc) None log)
  | Some rollback, (have_local_offer | have_local_pranswer) =>
      Some (mkPC stable (connectionState pc)
              (currentLocalDescription pc) None
              (currentRemoteDescription pc) None log)
  | _, _ => None
  end.

Definition setRemoteDescription (d : RTCSessionDescriptionInit)
    (pc : RTCPeerConnection) : option RTCPeerConnection :=
  let log := applied pc ++ [SetRemote d] in
  match sdp_type d, signalingState pc with
  | Some offer, (stable | have_remote_offer) =>
      Some (mkPC have_remote_offer (connectionState pc)
              (currentLocalDescription pc) (pendingLocalDescription pc)
              (currentRemoteDescription pc) (Some d) log)
  | Some pranswer, (have_local_offer | have_remote_pranswer) =>
      Some (mkPC have_remote_pranswer (connectionState pc)
              (currentLocalDescription pc) (pendingLocalDescription pc)
              (currentRemoteDescription pc) (Some d) log)
  | Some answer, (have_local_offer | have_remote_pranswer) =>
      Some (mkPC stable (connectionState pc)
              (pendingLocalDescription pc) None (Some d) None log)
  | Some rollback, (have_remote_offer | have_remote_pranswer) =>
      Some (mkPC stable (connectionState pc)
              (currentLocalDescription pc) None
              (currentRemoteDescription pc) None log)
  | _, _ => None
  end.

(** [new RTCIceCandidate(init)] throws when both [sdpMid] and
    [sdpMLineIndex] are missing. *)
Definition constructible (c : RTCIceCandidateInit) : bool :=
  bool_decide (is_Some (sdpMid c)) || bool_decide (is_Some (sdpMLineIndex c)).

(** [pc.addIceCandidate(new RTCIceCandidate(c))]: rejected on a closed
    connection and on one without a remote description. *)
Definition addIceCandidate (c : RTCIceCandidateInit)
    (pc : RTCPeerConnection) : option RTCPeerConnection :=
  if negb (constructible c) then None
  else if bool_decide (signalingState pc = closed) then None
  else match remoteDescription pc with
       | None => None
       | Some _ =>
           Some (mkPC (signalingState pc) (connectionState pc)
                   (currentLocalDescription pc) (pendingLocalDescription pc)
                   (currentRemoteDescription pc) (pendingRemoteDescription pc)
                   (applied pc ++ [AddCandidate c]))
       end.

(** [for (const c of candidates) await pc.addIceCandidate(...)]: stops at
    the first rejection. *)
Fixpoint addIceCandidates (cs : list RTCIceCandidateInit)
    (pc : RTCPeerConnection) : option RTCPeerConnection :=
  match cs with
  | [] => Some pc
  | c :: cs' =>
      match addIceCandidate c pc with
      | Some pc' => addIceCandidates cs' pc'
      | None => None
      end
  end.

(** [pc.close()]: does nothing on a connection that is already closed. *)
Definition close (pc : RTCPeerConnection) : RTCPeerConnection :=
  if bool_decide (signalingState pc = closed) then pc
  else mkPC closed conn_closed
         (currentLocalDescription pc) (pendingLocalDescription pc)
         (currentRemoteDescription pc) (pendingRemoteDescription pc)
         (applied pc ++ [Close]).

(** The browser moves the connection state of a connection. *)
Definition set_connectionState (s : RTCPeerConnectionState)
    (pc : RTCPeerConnection) : RTCPeerConnection :=
  mkPC (signalingState pc) s
    (currentLocalDescription pc) (pendingLocalDescription pc)
    (currentRemoteDescription pc) (pendingRemoteDescription pc)
    (applied pc).

End WebRTC.

(** ** The socket provider (SocketContext.tsx)

    The three maps kept in refs, the flags kept in component state, and
    the listeners registered on the socket. *)

Module SocketContext.
Import WebRTC.

Record State := mkState {
  socket_id : string;
  isConnected : bool;
  isSearching : bool;
  isCancelling : bool;
  peerConnections : gmap string RTCPeerConnection;
  pendingCandidates : gmap string (list RTCIceCandidateInit);
  allowedPairs : gmap string string
}.

(** What the client sends to the server. *)
Inductive Emit :=
| emit_match_search
| emit_match_cancel
| emit_webrtc_offer (userId : string) (offer : option RTCSessionDescriptionInit)
| emit_webrtc_answer (userId : string) (answer : RTCSessionDescriptionInit).

(** The provider as mounted for the socket with id [me]. *)
Definition init (me : string) : State :=
  mkState me false false false ∅ ∅ ∅.

Definition set_flags (connected searching cancelling : bool) (st : State) : State :=
  mkState (socket_id st) connected searching cancelling
    (peerConnections st) (pendingCandidates st) (allowedPairs st).

Definition set_peerConnections (m : gmap string RTCPeerConnection)
    (st : State) : State :=
  mkState (socket_id st) (isConnected st) (isSearching st) (isCancelling st)
    m (pendingCandidates st) (allowedPairs st).

Definition set_pendingCandidates (m : gmap string (list RTCIceCandidateInit))
    (st : State) : State :=
  mkState (socket_id st) (isConnected st) (isSearching st) (isCancelling st)
    (peerConnections st) m (allowedPairs st).

Definition set_allowedPairs (m : gmap string string) (st : State) : State :=
  mkState (socket_id st) (isConnected st) (isSearching st) (isCancelling st)
    (peerConnections st) (pendingCandidates st) m.

(** [getOrCreatePeerConnection]: the connection kept for [userId], or a new
    one stored under [userId] when there is none or it is closed. *)
Definition getOrCreatePeerConnection (userId : string) (st : State)
    : RTCPeerConnection * State :=
  match peerConnections st !! userId with
  | Some pc =>
      if bool_decide (connectionState pc = conn_closed)
      then (new_connection,
            set_peerConnections (<[userId := new_connection]> (peerConnections st)) st)
      else (pc, st)
  | None =>
      (new_connection,
       set_peerConnections (<[userId := new_connection]> (peerConnections st)) st)
  end.

(** [cleanupPeerConnection]: closes the connection kept for [userId], if
    any, and drops the entries of [userId] from the three maps. *)
Definition cleanupPeerConnection (userId : string) (st : State) : State :=
  let st1 :=
    match peerConnections st !! userId with
    | Some pc => set_peerConnections (delete userId (peerConnections st)) st
    | None => st
    end in
  let st2 := set_pendingCandidates (delete userId (pendingCandidates st1)) st1 in
  set_allowedPairs (delete userId (allowedPairs st2)) st2.

(** [peerConnections.current.forEach((_, userId) => cleanupPeerConnection(userId))] *)
Definition cleanup_all (st : State) : State :=
  map_fold (λ userId _ acc, cleanupPeerConnection userId acc) st
    (peerConnections st).

(** [allowedPairs.current.has(userId)] *)
Definition authorized (st : State) (userId : string) : bool :=
  bool_decide (is_Some (allowedPairs st !! userId)).

(** [socketInstance.on('connect', ...)] *)
Definition on_connect (st : State) : State * list Emit :=
  (set_flags true (isSearching st) (isCancelling st) st, []).

(** [socketInstance.on('disconnect', ...)] *)
Definition on_disconnect (st : State) : State * list Emit :=
  let st1 := set_flags false false false st in
  let st2 := cleanup_all st1 in
  let st3 := set_allowedPairs ∅ st2 in
  (set_pendingCandidates ∅ st3, []).

(** [socketInstance.on('match:found', ...)]; [socketInstance.id < data.peerId]
    compares the two ids as strings, code unit by code unit, a proper prefix
    first, which on the ASCII ids of the socket layer is [String.ltb]. *)
Definition on_match_found (peerId : string) (st : State) : State * list Emit :=
  let st1 := set_flags (isConnected st) false false st in
  let st2 := set_allowedPairs (<[peerId := socket_id st1]> (allowedPairs st1)) st1 in
  let shouldCreateOffer := String.ltb (socket_id st2) peerId in
  if shouldCreateOffer then
    let '(pc, st3) := getOrCreatePeerConnection peerId st2 in
    match createOffer pc with
    | Some o =>
        match setLocalDescription o pc with
        | Some pc1 =>
            (set_peerConnections (<[peerId := pc1]> (peerConnections st3)) st3,
             [emit_webrtc_offer peerId (localDescription pc1)])
        | None => (st3, [])
        end
    | None => (st3, [])
    end
  else (st2, []).

(** [socketInstance.on('webrtc:offer', ...)] *)
Definition on_webrtc_offer (userId : string) (o : RTCSessionDescriptionInit)
    (st : State) : State * list Emit :=
  if negb (authorized st userId) then (st, [])
  else
    let '(pc, st1) := getOrCreatePeerConnection userId st in
    match setRemoteDescription o pc with
    | None => (cleanupPeerConnection userId st1, [])
    | Some pc1 =>
        match createAnswer pc1 with
        | None => (cleanupPeerConnection userId st1, [])
        | Some a =>
            match setLocalDescription a pc1 with
            | None => (cleanupPeerConnection userId st1, [])
            | Some pc2 =>
                let out := [emit_webrtc_answer userId a] in
                let candidates := default [] (pendingCandidates st1 !! userId) in
                match addIceCandidates candidates pc2 with
                | None => (cleanupPeerConnection userId st1, out)
                | Some pc3 =>
                    let st2 := set_peerConnections
                                 (<[userId := pc3]> (peerConnections st1)) st1 in
                    (set_pendingCandidates
                       (delete userId (pendingCandidates st2)) st2, out)
                end
            end
        end
    end.

(** [socketInstance.on('webrtc:answer', ...)] *)
Definition on_webrtc_answer (userId : string) (a : RTCSessionDescriptionInit)
    (st : State) : State * list Emit :=
  if negb (authorized st userId) then (st, [])
  else
    match peerConnections st !! userId with
    | None => (cleanupPeerConnection userId st, [])
    | Some pc =>
        if negb (bool_decide (signalingState pc = have_local_offer))
        then (st, [])
        else
          match setRemoteDescription a pc with
          | None => (cleanupPeerConnection userId st, [])
          | Some pc1 =>
              let candidates := default [] (pendingCandidates st !! userId) in
              match addIceCandidates candidates pc1 with
              | None => (cleanupPeerConnection userId st, [])
              | Some pc2 =>
                  let st1 := set_peerConnections
                               (<[userId := pc2]> (peerConnections st)) st in
                  (set_pendingCandidates
                     (delete userId (pendingCandidates st1)) st1, [])
              end
          end
    end.

(** The queueing branch of the candidate listener. *)
Definition queue_candidate (userId : string) (c : RTCIceCandidateInit)
    (st : State) : State :=
  let pending :=
    if bool_decide (is_Some (pendingCandidates st !! userId))
    then pendingCandidates st
    else <[userId := []]> (pendingCandidates st) in
  set_pendingCandidates
    (<[userId := default [] (pending !! userId) ++ [c]]> pending) st.

(** [socketInstance.on('webrtc:candidate', ...)] *)
Definition on_webrtc_candidate (userId : string) (c : RTCIceCandidateInit)
    (st : State) : State * list Emit :=
  if negb (authorized st userId) then (st, [])
  else
    match peerConnections st !! userId with
    | Some pc =>
        if bool_decide (is_Some (remoteDescription pc)) then
          match addIceCandidate c pc with
          | Some pc1 =>
              (set_peerConnections (<[userId := pc1]> (peerConnections st)) st, [])
          | None => (st, [])
          end
        else (queue_candidate userId c st, [])
    | None => (queue_candidate userId c st, [])
    end.

(** [pc.onconnectionstatechange] of the connection kept for [userId], run
    after the browser has moved that connection to state [s]. *)
Definition on_connectionstatechange (userId : string)
    (s : RTCPeerConnectionState) (st : State) : State * list Emit :=
  match peerConnections st !! userId with
  | Some pc =>
      let st1 := set_peerConnections
                   (<[userId := set_connectionState s pc]> (peerConnections st)) st in
      if bool_decide (s = conn_failed) || bool_decide (s = conn_closed)
      then (cleanupPeerConnection userId st1, [])
      else (st1, [])
  | None => (st, [])
  end.

(** [startSearching]; [socket] is set before the first [connect] is
    dispatched and never reset, so [socket && isConnected] is
    [isConnected]. *)
Definition startSearching (st : State) : State * list Emit :=
  if isConnected st && negb (isSearching st)
  then (set_flags (isConnected st) true false st, [emit_match_search])
  else (st, []).

(** [stopSearching] *)
Definition stopSearching (st : State) : State * list Emit :=
  if isConnected st && isSearching st && negb (isCancelling st)
  then (cleanup_all (set_flags (isConnected st) false true st),
        [emit_match_cancel])
  else (st, []).

(** *** Event sequences *)

Inductive Event :=
| Connect
| SocketDisconnect
| MatchFound (peerId : string)
| Offer (userId : string) (o : RTCSessionDescriptionInit)
| Answer (userId : string) (a : RTCSessionDescriptionInit)
| Candidate (userId : string) (c : RTCIceCandidateInit)
| ConnectionStateChange (userId : string) (s : RTCPeerConnectionState)
| StartSearching
| StopSearching.

Definition handle (e : Event) (st : State) : State * list Emit :=
  match e with
  | Connect => on_connect st
  | SocketDisconnect => on_disconnect st
  | MatchFound peerId => on_match_found peerId st
  | Offer userId o => on_webrtc_offer userId o st
  | Answer userId a => on_webrtc_answer userId a st
  | Candidate userId c => on_webrtc_candidate userId c st
  | ConnectionStateChange userId s => on_connectionstatechange userId s st
  | StartSearching => startSearching st
  | StopSearching => stopSearching st
  end.

(** The state left by a sequence of events. *)
Definition run (st : State) (evs : list Event) : State :=
  fold_left (λ acc e, (handle e acc).1) evs st.

(** What a sequence of events makes the provider send, oldest first. *)
Fixpoint sent (st : State) (evs : list Event) : list Emit :=
  match evs with
  | [] => []
  | e :: evs' => (handle e st).2 ++ sent (handle e st).1 evs'
  end.

Definition is_search (e : Emit) : bool :=
  match e with emit_match_search => true | _ => false end.

Definition is_cancel (e : Emit) : bool :=
  match e with emit_match_cancel => true | _ => false end.

Definition searches (l : list Emit) : nat := length (List.filter is_search l).
Definition cancels (l : list Emit) : nat := length (List.filter is_cancel l).

End SocketContext.

(** ** The video provider (VideoContext in App.tsx)

    The provider keeps its state with [useState]: a function defined in the
    component body reads the values of the render that created it, and a
    [set...] call only changes what the next render will see.  A handler
    therefore takes the render it closes over besides the world it acts
    on.  Connections and streams are objects: state and closures hold
    references into a heap, so that closing a connection through one
    reference is seen through every other. *)

Module VideoContext.
Import WebRTC.

(** A media stream: for each of its tracks, whether it is still live. *)
Record MediaStream := mkStream {
  stream_id : string;
  tracks_live : list bool
}.

(** The values one render sees. *)
Record Render := mkRender {
  socket : bool;                 (* [socket] of [useSocket()] is not null *)
  isConnected : bool;            (* [isConnected] of [useSocket()] *)
  remoteStream : option nat;
  isChatting : bool;
  isSearching : bool;
  isEnding : bool;
  error : option string;
  peerConnection : option nat;
  pendingCandidates : list RTCIceCandidateInit
}.

Inductive Emit :=
| emit_match_search
| emit_match_cancel
| emit_offer (userId : string) (o : RTCSessionDescriptionInit)
| emit_answer (userId : string) (a : RTCSessionDescriptionInit)
| emit_ice_candidate (userId : string) (c : RTCIceCandidateInit).

Record World := mkWorld {
  next : Render;                           (* what the next render will see *)
  remoteVideo_mounted : bool;              (* [remoteVideoRef.current] is not null *)
  remoteVideo_srcObject : option nat;
  remoteStreamTimeout : option nat;        (* [remoteStreamTimeout.current] *)
  timers : gset nat;                       (* timeouts still scheduled *)
  connections : gmap nat RTCPeerConnection;
  streams : gmap nat MediaStream;
  emitted : list Emit                      (* [socket.emit], oldest first *)
}.

Definition with_next (f : Render → Render) (w : World) : World :=
  mkWorld (f (next w)) (remoteVideo_mounted w) (remoteVideo_srcObject w)
    (remoteStreamTimeout w) (timers w) (connections w) (streams w) (emitted w).

Definition setRemoteStream (v : option nat) : World → World :=
  with_next (λ r, mkRender (socket r) (isConnected r) v (isChatting r)
                    (isSearching r) (isEnding r) (error r) (peerConnection r)
                    (pendingCandidates r)).

Definition setIsChatting (v : bool) : World → World :=
  with_next (λ r, mkRender (socket r) (isConnected r) (remoteStream r) v
                    (isSearching r) (isEnding r) (error r) (peerConnection r)
                    (pendingCandidates r)).

Definition setIsSearching (v : bool) : World → World :=
  with_next (λ r, mkRender (socket r) (isConnected r) (remoteStream r)
                    (isChatting r) v (isEnding r) (error r) (peerConnection r)
                    (pendingCandidates r)).

Definition setIsEnding (v : bool) : World → World :=
  with_next (λ r, mkRender (socket r) (isConnected r) (remoteStream r)
                    (isChatting r) (isSearching r) v (error r) (peerConnection r)
                    (pendingCandidates r)).

Definition setError (v : option string) : World → World :=
  with_next (λ r, mkRender (socket r) (isConnected r) (remoteStream r)
                    (isChatting r) (isSearching r) (isEnding r) v
                    (peerConnection r) (pendingCandidates r)).

Definition setPeerConnection (v : option nat) : World → World :=
  with_next (λ r, mkRender (socket r) (isConnected r) (remoteStream r)
                    (isChatting r) (isSearching r) (isEnding r) (error r) v
                    (pendingCandidates r)).

(** [setPendingCandidates(prev => f(prev))]; a plain value is the constant
    update. *)
Definition setPendingCandidates
    (f : list RTCIceCandidateInit → list RTCIceCandidateInit) : World → World :=
  with_next (λ r, mkRender (socket r) (isConnected r) (remoteStream r)
                    (isChatting r) (isSearching r) (isEnding r) (error r)
                    (peerConnection r) (f (pendingCandidates r))).

Definition set_connections (m : gmap nat RTCPeerConnection) (w : World) : World :=
  mkWorld (next w) (remoteVideo_mounted w) (remoteVideo_srcObject w)
    (remoteStreamTimeout w) (timers w) m (streams w) (emitted w).

Definition set_streams (m : gmap nat MediaStream) (w : World) : World :=
  mkWorld (next w) (remoteVideo_mounted w) (remoteVideo_srcObject w)
    (remoteStreamTimeout w) (timers w) (connections w) m (emitted w).

(** [socket.emit(...)] *)
Definition emit (e : Emit) (w : World) : World :=
  mkWorld (next w) (remoteVideo_mounted w) (remoteVideo_srcObject w)
    (remoteStreamTimeout w) (timers w) (connections w) (streams w)
    (emitted w ++ [e]).

(** [stream.getTracks().forEach(track => track.stop())] *)
Definition stop_tracks (s : MediaStream) : MediaStream :=
  mkStream (stream_id s) (map (λ _, false) (tracks_live s)).

(** [cleanupPeerConnection], in the render [r]. *)
Definition cleanupPeerConnection (r : Render) (w : World) : World :=
  let w1 :=
    match peerConnection r with
    | Some h =>
        setPeerConnection None
          (set_connections (alter close h (connections w)) w)
    | None => w
    end in
  setPendingCandidates (λ _, []) w1.

(** [endChat], in the render [r]. *)
Definition endChat (r : Render) (w : World) : World :=
  if isEnding r then w
  else
    let w := setIsEnding true w in
    let w := if socket r && isConnected r then emit emit_match_cancel w else w in
    let w :=
      match remoteStream r with
      | Some s =>
          setRemoteStream None (set_streams (alter stop_tracks s (streams w)) w)
      | None => w
      end in
    let w :=
      if remoteVideo_mounted w
      then mkWorld (next w) (remoteVideo_mounted w) None
             (remoteStreamTimeout w) (timers w) (connections w) (streams w)
             (emitted w)
      else w in
    let w :=
      match remoteStreamTimeout w with
      | Some t =>
          mkWorld (next w) (remoteVideo_mounted w) (remoteVideo_srcObject w)
            None (timers w ∖ {[t]}) (connections w) (streams w) (emitted w)
      | None => w
      end in
    let w := cleanupPeerConnection r w in
    let w := setIsChatting false w in
    let w := setIsSearching false w in
    let w := setError None w in
    setIsEnding false w.

Section handlers.
(** [addIceCandidate(connection, candidate)] of utils/webrtc, which the
    provider imports; [None] when it throws. *)
Variable addIceCandidate_util :
  RTCPeerConnection → RTCIceCandidateInit → option RTCPeerConnection.

(** [for (const candidate of pendingCandidates) await addIceCandidate(...)]:
    the connection as the loop leaves it, and whether it ran to the end. *)
Fixpoint flush (cs : list RTCIceCandidateInit) (pc : RTCPeerConnection)
    : RTCPeerConnection * bool :=
  match cs with
  | [] => (pc, true)
  | c :: cs' =>
      match addIceCandidate_util pc c with
      | Some pc' => flush cs' pc'
      | None => (pc, false)
      end
  end.

(** [handleAnswer], in the render [r]; every [throw] lands in the
    [catch], which calls [endChat]. *)
Definition handleAnswer (r : Render) (a : option RTCSessionDescriptionInit)
    (w : World) : World :=
  match peerConnection r with
  | None => endChat r w
  | Some h =>
      match a with
      | None => endChat r w
      | Some a =>
          if negb (bool_decide (is_Some (sdp_type a))) then endChat r w
          else
            match connections w !! h with
            | None => endChat r w
            | Some pc =>
                if bool_decide (signalingState pc = stable) then w
                else if negb (bool_decide (signalingState pc = have_local_offer))
                then endChat r w
                else
                  match setRemoteDescription a pc with
                  | None => endChat r w
                  | Some pc1 =>
                      let '(pc2, ok) := flush (pendingCandidates r) pc1 in
                      let w1 := set_connections (<[h := pc2]> (connections w)) w in
                      if ok then setPendingCandidates (λ _, []) w1
                      else endChat r w1
                  end
            end
      end
  end.

(** [handleIceCandidate], in the render [r]; an error is logged. *)
Definition handleIceCandidate (r : Render) (c : option RTCIceCandidateInit)
    (w : World) : World :=
  match c with
  | None => w
  | Some c =>
      let queue := setPendingCandidates (λ prev, prev ++ [c]) w in
      match peerConnection r with
      | Some h =>
          match connections w !! h with
          | Some pc =>
              if bool_decide (is_Some (remoteDescription pc)) then
                match addIceCandidate_util pc c with
                | Some pc' => set_connections (<[h := pc']> (connections w)) w
                | None => w
                end
              else queue
          | None => w
          end
      | None => queue
      end
  end.
End handlers.

(** The world without the record of what was sent. *)
Definition state_of (w : World) : World :=
  mkWorld (next w) (remoteVideo_mounted w) (remoteVideo_srcObject w)
    (remoteStreamTimeout w) (timers w) (connections w) (streams w) [].

End VideoContext.

(** ** The media hook (useMediaStream)

    The hook keeps [stream], [error] and [isLoading] in component state and
    requests the camera once, in an effect without dependencies.  The
    effect's [mounted] flag and the streams the browser handed out are kept
    beside the state. *)

Module UseMediaStream.
Import VideoContext.

Record State := mkState {
  stream : option nat;
  error : option string;
  isLoading : bool
}.

(** What the first render sees. *)
Definition initial : State := mkState None None true.

Record Hook := mkHook {
  state : State;                       (* what the next render will see *)
  mounted : bool;                      (* the [mounted] variable of the effect *)
  streams : gmap nat MediaStream
}.

(** The [switch (err.name)] of the [catch]. *)
Definition errorMessage (name : string) : string :=
  if String.eqb name "NotAllowedError" then
    "Camera access denied. Please allow camera and microphone access in your browser settings."
  else if String.eqb name "NotFoundError" then
    "No camera or microphone found. Please check your device connections."
  else if String.eqb name "NotReadableError" then
    "Camera or microphone is already in use by another application."
  else if String.eqb name "OverconstrainedError" then
    "Camera requirements not met. Please check your camera settings."
  else if String.eqb name "TypeError" then
    "No permission to access media devices."
  else "Failed to access media devices".

(** How [getUserMedia] settles: with a stream, or with an error of a name. *)
Inductive Outcome :=
| resolved (mediaStream : nat)
| rejected (name : string).

(** [getMediaStream] from the point where [getUserMedia] has settled. *)
Definition getMediaStream (o : Outcome) (h : Hook) : Hook :=
  let h1 :=
    match o with
    | resolved s =>
        if mounted h
        then mkHook (mkState (Some s) None (isLoading (state h)))
               (mounted h) (streams h)
        else h
    | rejected name =>
        if mounted h
        then mkHook (mkState None (Some (errorMessage name)) (isLoading (state h)))
               (mounted h) (streams h)
        else h
    end in
  if mounted h1
  then mkHook (mkState (stream (state h1)) (error (state h1)) false)
         (mounted h1) (streams h1)
  else h1.

(** The function the effect returns, as created in the render [r]. *)
Definition cleanup (r : State) (h : Hook) : Hook :=
  mkHook (state h) false
    (match stream r with
     | Some s => alter stop_tracks s (streams h)
     | None => streams h
     end).

(** Unmounting runs the cleanup of the only effect run, that of the first
    render. *)
Definition unmount (h : Hook) : Hook := cleanup initial h.

End UseMediaStream.

(** ** The video provider, continued: search, match and offer

    The local stream is kept in a ref besides the state; the timeout that
    delays the display of a remote stream is remembered with the stream it
    will show.  The helpers the provider imports from utils/webrtc are
    parameters. *)

Module VideoProvider.
Import WebRTC VideoContext.

Record Provider := mkProvider {
  world : World;
  localStreamRef : option nat;         (* [localStreamRef.current] *)
  localStream : option nat;            (* state, as the next render will see it *)
  localVideo_mounted : bool;           (* [localVideoRef.current] is not null *)
  localVideo_srcObject : option nat;
  display : gmap nat nat               (* the stream a scheduled timeout will show *)
}.

Definition with_world (f : World → World) (p : Provider) : Provider :=
  mkProvider (f (world p)) (localStreamRef p) (localStream p)
    (localVideo_mounted p) (localVideo_srcObject p) (display p).

(** How [getUserMedia] settles in [startChat]: with a stream, or with a
    thrown value of some name and message that is an [Error] or not. *)
Inductive MediaResult :=
| acquired (stream : nat)
| refused (name message : string) (is_error : bool).

(** The [catch] of [startChat]. *)
Definition startChat_failed (r : Render) (message : string) (p : Provider)
    : Provider :=
  with_world (λ w, endChat r (setIsSearching false (setError (Some message) w))) p.

(** [startChat], in the render [r]. *)
Definition startChat (r : Render) (media : MediaResult) (p : Provider)
    : Provider :=
  if negb (socket r && isConnected r)
  then startChat_failed r "Socket connection not available" p
  else
    let p1 := with_world (λ w, setIsEnding false (setIsSearching true (setError None w))) p in
    match localStreamRef p1 with
    | Some _ => with_world (emit emit_match_search) p1
    | None =>
        match media with
        | acquired s =>
            let p2 :=
              mkProvider (world p1) (Some s) (Some s) (localVideo_mounted p1)
                (if localVideo_mounted p1 then Some s else localVideo_srcObject p1)
                (display p1) in
            with_world (emit emit_match_search) p2
        | refused name message is_error =>
            if String.eqb name "NotAllowedError"
            then startChat_failed r
                   "Please allow camera and microphone access to use video chat." p1
            else startChat_failed r
                   (if is_error then message else "Failed to start chat") p1
        end
    end.

(** The wait of [handleMatchFound] for the local stream: [ref_at k] is
    [localStreamRef.current] after [k] sleeps of 100 ms. *)
Definition maxAttempts : nat := 50.

Fixpoint poll (ref_at : nat → option nat) (remaining attempts : nat) : nat :=
  match ref_at attempts, remaining with
  | None, S remaining' => poll ref_at remaining' (S attempts)
  | _, _ => attempts
  end.

(** The number of sleeps, and the ref as the final check finds it ([None]:
    the handler throws). *)
Definition waitForLocalStream (ref_at : nat → option nat) : nat * option nat :=
  match ref_at 0%nat with
  | Some s => (0%nat, Some s)
  | None => let attempts := poll ref_at maxAttempts 0 in (attempts, ref_at attempts)
  end.

(** [pc.connection.ontrack], for the first stream of the event; the id
    [setTimeout] returns is positive and not that of a scheduled timeout. *)
Definition ontrack (stream0 : option nat) (p : Provider) : Provider :=
  let w := world p in
  let differs s :=
    match localStreamRef p with
    | None => true
    | Some l =>
        negb (bool_decide (stream_id <$> streams w !! s = stream_id <$> streams w !! l))
    end in
  match stream0 with
  | Some s =>
      if differs s then
        let live :=
          match remoteStreamTimeout w with
          | Some t => timers w ∖ {[t]}
          | None => timers w
          end in
        let t := fresh ({[0%nat]} ∪ live) in
        mkProvider
          (mkWorld (next w) (remoteVideo_mounted w) (remoteVideo_srcObject w)
             (Some t) ({[t]} ∪ live) (connections w) (streams w) (emitted w))
          (localStreamRef p) (localStream p) (localVideo_mounted p)
          (localVideo_srcObject p) (<[t := s]> (display p))
      else p
  | None => p
  end.

(** The timeout [t] fires, if it is still scheduled. *)
Definition timeout_fires (t : nat) (p : Provider) : Provider :=
  let w := world p in
  if bool_decide (t ∈ timers w) then
    match display p !! t with
    | Some s =>
        with_world
          (λ w, let w1 := setRemoteStream (Some s) w in
                mkWorld (next w1) (remoteVideo_mounted w1)
                  (if remoteVideo_mounted w1 then Some s else remoteVideo_srcObject w1)
                  (remoteStreamTimeout w1) (timers w1 ∖ {[t]}) (connections w1)
                  (streams w1) (emitted w1)) p
    | None => with_world (λ w, mkWorld (next w) (remoteVideo_mounted w)
                                 (remoteVideo_srcObject w) (remoteStreamTimeout w)
                                 (timers w ∖ {[t]}) (connections w) (streams w)
                                 (emitted w)) p
    end
  else p.

Section helpers.
(** [createPeerConnection(peerId)]: the connection object it returns
    ([None] when it throws). *)
Variable createPeerConnection : string → option RTCPeerConnection.
(** [addTracksToConnection(connection, stream)]: the connection as it leaves
    it ([None] when it throws). *)
Variable addTracksToConnection : RTCPeerConnection → nat → option RTCPeerConnection.
(** [createOffer(connection)]: the connection as it leaves it, and the offer
    ([None] when it throws or returns nothing). *)
Variable createOffer_util :
  RTCPeerConnection → RTCPeerConnection * option RTCSessionDescriptionInit.
(** [createAnswer(connection, offer)]: the connection as it leaves it, and
    the answer ([None] when it throws). *)
Variable createAnswer_util :
  RTCPeerConnection → RTCSessionDescriptionInit →
  RTCPeerConnection * option RTCSessionDescriptionInit.
(** [addIceCandidate(connection, candidate)] ([None] when it throws). *)
Variable addIceCandidate_util :
  RTCPeerConnection → RTCIceCandidateInit → option RTCPeerConnection.

(** [setupPeerConnection(peerId)], in the render [r]: the provider it
    leaves and the handle of the connection it returns ([None] for
    [null]).  The callbacks it registers on the connection are events of
    their own. *)
Definition setupPeerConnection (r : Render) (peerId : string) (p : Provider)
    : Provider * option nat :=
  if negb (socket r) then (p, None)
  else
    let p1 := with_world (cleanupPeerConnection r) p in
    match createPeerConnection peerId with
    | None => (p1, None)
    | Some pc =>
        let h := fresh (dom (connections (world p1))) in
        let p2 :=
          with_world (λ w, setPeerConnection (Some h)
                             (set_connections (<[h := pc]> (connections w)) w)) p1 in
        match localStreamRef p2 with
        | Some s =>
            match addTracksToConnection pc s with
            | Some pc1 =>
                (with_world (λ w, set_connections (<[h := pc1]> (connections w)) w) p2,
                 Some h)
            | None => (p2, None)
            end
        | None => (p2, Some h)
        end
    end.

(** [handleMatchFound] once the wait for the local stream is over, in the
    render [r] of the socket with id [socket_id]. *)
Definition handleMatchFound (r : Render) (socket_id peerId : string)
    (p : Provider) : Provider :=
  match localStreamRef p with
  | None => with_world (endChat r) p
  | Some _ =>
      match setupPeerConnection r peerId p with
      | (p1, None) => with_world (endChat r) p1
      | (p1, Some h) =>
          let started w := setIsSearching false (setIsChatting true w) in
          let shouldCreateOffer := String.ltb socket_id peerId in
          if shouldCreateOffer then
            match connections (world p1) !! h with
            | None => with_world (endChat r) p1
            | Some pc =>
                let '(pc1, o) := createOffer_util pc in
                let p2 := with_world
                            (λ w, set_connections (<[h := pc1]> (connections w)) w) p1 in
                match o with
                | None => with_world (endChat r) p2
                | Some o =>
                    with_world (λ w, started (emit (emit_offer peerId o) w)) p2
                end
            end
          else with_world started p1
      end
  end.

(** [handleOffer], in the render [r]. *)
Definition handleOffer (r : Render) (userId : string)
    (offer0 : option RTCSessionDescriptionInit) (p : Provider) : Provider :=
  match offer0 with
  | None => with_world (endChat r) p
  | Some o =>
      if negb (bool_decide (is_Some (sdp_type o))) then with_world (endChat r) p
      else
        match setupPeerConnection r userId p with
        | (p1, None) => p1
        | (p1, Some h) =>
            match connections (world p1) !! h with
            | None => with_world (endChat r) p1
            | Some pc =>
                match setRemoteDescription o pc with
                | None => with_world (endChat r) p1
                | Some pc1 =>
                    let '(pc2, a) := createAnswer_util pc1 o in
                    match a with
                    | None =>
                        with_world
                          (λ w, endChat r
                                  (set_connections (<[h := pc2]> (connections w)) w)) p1
                    | Some a =>
                        let '(pc3, ok) := flush addIceCandidate_util
                                            (pendingCandidates r) pc2 in
                        let p2 :=
                          with_world
                            (λ w, emit (emit_answer userId a)
                                    (set_connections (<[h := pc3]> (connections w)) w))
                            p1 in
                        if ok then
                          with_world
                            (λ w, setIsSearching false
                                    (setIsChatting true
                                       (setPendingCandidates (λ _, []) w))) p2
                        else with_world (endChat r) p2
                    end
                end
            end
        end
  end.
End helpers.

(** What the first render of the provider sees: its own state as
    [useState] initialises it, the socket and its flag as the socket
    provider hands them over at that time. *)
Definition first_render (socket0 isConnected0 : bool) : Render :=
  mkRender socket0 isConnected0 None false false false None None [].

(** The cleanup of the effect without dependencies, as created in the
    render [r]. *)
Definition unmount_effect (r : Render) (p : Provider) : Provider :=
  let p1 := with_world (endChat r) p in
  match localStreamRef p1 with
  | Some s => with_world (λ w, set_streams (alter stop_tracks s (streams w)) w) p1
  | None => p1
  end.

(** Unmounting runs the cleanup of the only run of that effect, that of the
    first render. *)
Definition unmount (socket0 isConnected0 : bool) (p : Provider) : Provider :=
  unmount_effect (first_render socket0 isConnected0) p.

(** At most one timeout is scheduled, the one the ref names. *)
Definition one_timer (p : Provider) : Prop :=
  timers (world p) ⊆
    match remoteStreamTimeout (world p) with
    | Some t => {[t]}
    | None => ∅
    end.

End VideoProvider.

(** * Properties *)

(** ** Array primitives *)

Section array_facts.
Import JsArray.
Context {A : Type}.
Implicit Types (p : A → bool) (l : list A).

(** Removal of the first element satisfying [p]: what [findIndex] followed
    by a guarded [splice] computes. *)
Fixpoint remove_first p l : list A :=
  match l with
  | [] => []
  | x :: l' => if p x then l' else x :: remove_first p l'
  end.

Lemma findIndex_from_range p l i :
  0 ≤ i →
  findIndex_from i p l = -1 ∨
  (i ≤ findIndex_from i p l < i + Z.of_nat (length l)).
Proof.
  revert i; induction l as [|x l IH]; intros i Hi; simpl; [by left|].
  destruct (p x); [right; lia|].
  destruct (IH (i + 1)) as [->|?]; [lia|by left|right; lia].
Qed.

Lemma findIndex_from_none p l i :
  0 ≤ i → findIndex_from i p l = -1 → remove_first p l = l.
Proof.
  revert i; induction l as [|x l IH]; intros i Hi; simpl; [done|].
  destruct (p x); [lia|]. intros H. f_equal. apply (IH (i + 1)); [lia|done].
Qed.

Lemma findIndex_from_some p l i :
  0 ≤ i → findIndex_from i p l ≠ -1 →
  let k := Z.to_nat (findIndex_from i p l - i) in
  take k l ++ drop (S k) l = remove_first p l.
Proof.
  revert i; induction l as [|x l IH]; intros i Hi; simpl; [done|].
  destruct (p x) eqn:Hp.
  - intros _. by replace (i - i) with 0 by lia.
  - intros Hne.
    destruct (findIndex_from_range p l (i + 1)) as [?|Hr]; [lia|done|].
    replace (Z.to_nat (findIndex_from (i + 1) p l - i))
      with (S (Z.to_nat (findIndex_from (i + 1) p l - (i + 1)))) by lia.
    simpl. f_equal. apply IH; [lia|done].
Qed.

(** The guarded removal used by the search, cancel and disconnect
    handlers. *)
Lemma dequeue_remove_first p l :
  (if negb (findIndex p l =? -1) then splice1 (findIndex p l) l else l)
  = remove_first p l.
Proof.
  unfold findIndex.
  destruct (Z.eqb_spec (findIndex_from 0 p l) (-1)) as [He|Hne]; simpl.
  - symmetry. by apply (findIndex_from_none p l 0).
  - destruct (findIndex_from_range p l 0) as [?|Hr]; [lia|done|].
    unfold splice1.
    destruct (Z.ltb_spec (findIndex_from 0 p l) 0); [lia|].
    rewrite Z.min_l by lia.
    rewrite <- (findIndex_from_some p l 0) by (lia || done).
    by rewrite Z.sub_0_r.
Qed.

Lemma findIndex_from_found_iff p l i :
  0 ≤ i → findIndex_from i p l ≠ -1 ↔ ∃ x, x ∈ l ∧ p x = true.
Proof.
  revert i; induction l as [|x l IH]; intros i Hi; simpl.
  - split; [done|]. intros (x & Hx & _). by apply elem_of_nil in Hx.
  - destruct (p x) eqn:Hp.
    + split; [|lia]. intros _. exists x. split; [left|done].
    + rewrite (IH (i + 1)) by lia. split.
      * intros (y & Hy & ?). exists y. split; [by right|done].
      * intros (y & Hy & ?). apply elem_of_cons in Hy as [->|Hy];
          [congruence|by exists y].
Qed.

Lemma findIndex_found_iff p l :
  findIndex p l ≠ -1 ↔ ∃ x, x ∈ l ∧ p x = true.
Proof. by apply findIndex_from_found_iff. Qed.
End array_facts.

(** ** The waiting queue *)

Section queue_facts.
Import JsArray Server.
Implicit Types (p s : SocketId) (q : list SocketId) (st : State).

Definition remove_id s q : list SocketId :=
  remove_first (λ x, String.eqb x s) q.

Lemma remove_id_cons s x q :
  remove_id s (x :: q) = if String.eqb x s then q else x :: remove_id s q.
Proof. done. Qed.

Lemma remove_id_subseteq s q : remove_id s q ⊆ q.
Proof.
  induction q as [|x q IH]; [done|]. rewrite remove_id_cons.
  destruct (String.eqb x s); set_solver.
Qed.

Lemma remove_id_absent s q : s ∉ q → remove_id s q = q.
Proof.
  induction q as [|x q IH]; [done|]. rewrite remove_id_cons.
  intros Hs. destruct (String.eqb_spec x s) as [->|_]; [set_solver|].
  f_equal. apply IH. set_solver.
Qed.

Lemma elem_of_remove_id s q p :
  NoDup q → p ∈ remove_id s q ↔ p ∈ q ∧ p ≠ s.
Proof.
  induction 1 as [|x q Hx Hq IH]; [set_solver|]. rewrite remove_id_cons.
  destruct (String.eqb_spec x s) as [->|Hne]; set_solver.
Qed.

Lemma NoDup_remove_id s q : NoDup q → NoDup (remove_id s q).
Proof.
  induction 1 as [|x q Hx Hq IH]; [constructor|]. rewrite remove_id_cons.
  destruct (String.eqb x s); [done|]. constructor; [|done].
  intros Hin. by apply remove_id_subseteq in Hin.
Qed.

Lemma remove_id_idemp s q : NoDup q → remove_id s (remove_id s q) = remove_id s q.
Proof.
  intros Hq. apply remove_id_absent. rewrite elem_of_remove_id by done.
  naive_solver.
Qed.

(** The handlers, with the index arithmetic resolved. *)
Lemma match_search_eq s st :
  match_search s st =
    match remove_id s (waitingQueue st) with
    | [] => (set_queue st [s], [])
    | peer :: q' =>
        if connected st peer then
          (set_queue st q',
           [to_socket s (match_found peer); to_socket peer (match_found s)])
        else (set_queue st (q' ++ [s]), [])
    end.
Proof.
  unfold match_search, remove_id. rewrite dequeue_remove_first.
  by destruct (remove_first _ (waitingQueue st)).
Qed.

Lemma match_cancel_eq s st :
  match_cancel s st =
    (set_queue st (remove_id s (waitingQueue st)),
     if bool_decide (s ∈ waitingQueue st)
     then [to_socket s match_cancelled] else []).
Proof.
  unfold match_cancel.
  pose proof (dequeue_remove_first (λ x, String.eqb x s) (waitingQueue st)) as Hd.
  pose proof (findIndex_found_iff (λ x, String.eqb x s) (waitingQueue st)) as Hf.
  destruct (Z.eqb_spec (findIndex (λ x, String.eqb x s) (waitingQueue st)) (-1))
    as [He|Hne]; simpl in *.
  - rewrite bool_decide_eq_false_2.
    + unfold remove_id. rewrite <- Hd. by destruct st.
    + intros Hin. apply Hf; [|done]. exists s. by rewrite String.eqb_refl.
  - rewrite bool_decide_eq_true_2.
    + unfold remove_id. by rewrite <- Hd.
    + apply Hf in Hne as (x & Hx & ->%String.eqb_eq). done.
Qed.

Lemma disconnect_eq s st :
  disconnect s st =
    (mkState (remove_id s (waitingQueue st)) ({[s]} ∪ disconnected st), []).
Proof.
  unfold disconnect; simpl.
  pose proof (dequeue_remove_first (λ x, String.eqb x s) (waitingQueue st)) as Hd.
  destruct (Z.eqb_spec (findIndex (λ x, String.eqb x s) (waitingQueue st)) (-1));
    simpl in *; unfold remove_id, set_queue; simpl; by rewrite <- Hd.
Qed.

(** The queue invariant: no duplicate, and only live sockets. *)
Definition queue_ok st : Prop :=
  NoDup (waitingQueue st) ∧ ∀ x, x ∈ waitingQueue st → x ∉ disconnected st.

Lemma queue_ok_init : queue_ok init.
Proof. split; [constructor|]. intros x Hx. by apply elem_of_nil in Hx. Qed.

Lemma connected_true st x : x ∉ disconnected st → connected st x = true.
Proof. intros. by apply bool_decide_eq_true_2. Qed.

Lemma connected_false st x : x ∈ disconnected st → connected st x = false.
Proof. intros. apply bool_decide_eq_false_2. naive_solver. Qed.

(** One event preserves the invariant and moves the membership of every
    socket exactly as [waiting_after] says. *)
Lemma handle_step e st :
  queue_ok st → subject e ∉ disconnected st →
  queue_ok (handle e st).1 ∧
  ∀ p, bool_decide (p ∈ waitingQueue (handle e st).1) =
       waiting_after p (bool_decide (p ∈ waitingQueue st)) (e, (handle e st).2).
Proof.
  intros [Hnd Hlive] Hsub. destruct e as [s|s|s]; simpl in *.
  - rewrite match_search_eq.
    pose proof (NoDup_remove_id s _ Hnd) as Hnd'.
    assert (Hel : ∀ p, p ∈ remove_id s (waitingQueue st) ↔ p ∈ waitingQueue st ∧ p ≠ s)
      by (intros; by apply elem_of_remove_id).
    destruct (remove_id s (waitingQueue st)) as [|peer q'] eqn:Hq.
    + split; [split; simpl|].
      * apply NoDup_singleton.
      * intros x ->%list_elem_of_singleton. done.
      * intros p; simpl. destruct (String.eqb_spec s p) as [->|Hne].
        -- apply bool_decide_eq_true_2. set_solver.
        -- rewrite (bool_decide_ext _ (p ∈ waitingQueue st)); [done|].
           split; [set_solver|]. intros Hp. exfalso.
           eapply elem_of_nil, Hel. naive_solver.
    + apply NoDup_cons in Hnd' as [Hpeer Hq'].
      rewrite connected_true by (apply Hlive, Hel; left).
      split; [split; simpl|].
      * done.
      * intros x Hx. apply Hlive, Hel. by right.
      * intros p; simpl. rewrite orb_false_r.
        destruct (String.eqb_spec s p) as [->|Hne]; simpl.
        -- apply bool_decide_eq_false_2. intros Hp.
           assert (p ∈ peer :: q') as ?%Hel by (by right). naive_solver.
        -- destruct (String.eqb_spec peer p) as [->|Hne'].
           ++ by apply bool_decide_eq_false_2.
           ++ apply bool_decide_ext. split.
              ** intros Hp. by apply (Hel p); right.
              ** intros Hp. assert (p ∈ peer :: q') as Hp' by (by apply Hel).
                 apply elem_of_cons in Hp' as [->|?]; done.
  - rewrite match_cancel_eq; simpl. split; [split; simpl|].
    + by apply NoDup_remove_id.
    + intros x Hx%remove_id_subseteq. by apply Hlive.
    + intros p. destruct (String.eqb_spec s p) as [->|Hne].
      * apply bool_decide_eq_false_2. rewrite elem_of_remove_id by done.
        naive_solver.
      * apply bool_decide_ext. rewrite elem_of_remove_id by done. naive_solver.
  - rewrite disconnect_eq; simpl. split; [split; simpl|].
    + by apply NoDup_remove_id.
    + intros x Hx. pose proof Hx as Hx'%remove_id_subseteq.
      apply elem_of_remove_id in Hx; [|done].
      specialize (Hlive x Hx'). set_solver.
    + intros p. destruct (String.eqb_spec s p) as [->|Hne].
      * apply bool_decide_eq_false_2. rewrite elem_of_remove_id by done.
        naive_solver.
      * apply bool_decide_ext. rewrite elem_of_remove_id by done. naive_solver.
Qed.
End queue_facts.

Section broker_properties.
Import JsArray Server.
Implicit Types (p s : SocketId) (q : list SocketId) (st : State).

Lemma run_cons st e evs :
  run st (e :: evs) =
    ((run (handle e st).1 evs).1,
     (e, (handle e st).2) :: (run (handle e st).1 evs).2).
Proof.
  simpl. destruct (handle e st) as [st1 out]; simpl.
  by destruct (run st1 evs).
Qed.

Lemma filter_ne_absent s q : s ∉ q → filter (λ x, x ≠ s) q = q.
Proof.
  induction q as [|x q IH]; [done|]. intros Hs.
  rewrite filter_cons_True by set_solver. f_equal. apply IH. set_solver.
Qed.

Lemma remove_id_filter s q :
  NoDup q → remove_id s q = filter (λ x, x ≠ s) q.
Proof.
  induction 1 as [|x q Hx Hq IH]; [done|]. rewrite remove_id_cons.
  destruct (String.eqb_spec x s) as [->|Hne].
  - rewrite filter_cons_False by naive_solver. by rewrite filter_ne_absent.
  - rewrite filter_cons_True by done. by rewrite IH.
Qed.

Lemma handle_NoDup e st :
  NoDup (waitingQueue st) → NoDup (waitingQueue (handle e st).1).
Proof.
  intros Hnd. pose proof (NoDup_remove_id (subject e) _ Hnd) as Hnd'.
  assert (subject e ∉ remove_id (subject e) (waitingQueue st)) as Hs.
  { rewrite elem_of_remove_id by done. naive_solver. }
  destruct e as [s|s|s]; simpl in *.
  - rewrite match_search_eq.
    destruct (remove_id s (waitingQueue st)) as [|peer q']; simpl.
    + apply NoDup_singleton.
    + apply NoDup_cons in Hnd' as [? ?].
      destruct (connected st peer); simpl; [done|].
      apply NoDup_app. split_and!; [done| |apply NoDup_singleton].
      intros x Hx ->%list_elem_of_singleton. set_solver.
  - by rewrite match_cancel_eq.
  - by rewrite disconnect_eq.
Qed.

Lemma run_NoDup evs st :
  NoDup (waitingQueue st) → NoDup (waitingQueue (run st evs).1).
Proof.
  revert st; induction evs as [|e evs IH]; intros st Hnd; [done|].
  rewrite run_cons; simpl. by apply IH, handle_NoDup.
Qed.

Lemma run_invariant evs st :
  queue_ok st → well_formed st evs →
  queue_ok (run st evs).1 ∧
  ∀ p, bool_decide (p ∈ waitingQueue (run st evs).1) =
       fold_left (waiting_after p) (run st evs).2
                 (bool_decide (p ∈ waitingQueue st)).
Proof.
  revert st; induction evs as [|e evs IH]; intros st Hok Hwf; [done|].
  destruct Hwf as [Hsub%bool_decide_eq_true Hwf]. rewrite run_cons; simpl.
  destruct (handle_step e st Hok Hsub) as [Hok1 Hmem].
  destruct (IH _ Hok1 Hwf) as [Hok2 Hmem2]. split; [done|].
  intros p. by rewrite Hmem2, Hmem.
Qed.

(** C3. Whatever sequence of Search, Cancel and Disconnect events reaches
    the server from the empty queue, the waiting queue holds no id twice;
    and, the events being raised by live sockets only, an id is in the
    queue exactly when the history says its participant is currently
    waiting: it searched without being paired and has since been neither
    paired, cancelled nor disconnected. *)
Theorem waiting_queue_invariant (evs : list Event) :
  NoDup (waitingQueue (run init evs).1) ∧
  (well_formed init evs →
   ∀ p, p ∈ waitingQueue (run init evs).1 ↔
        currently_waiting p (run init evs).2 = true).
Proof.
  split; [apply run_NoDup; constructor|].
  intros Hwf p.
  destruct (run_invariant evs init queue_ok_init Hwf) as [_ Hmem].
  unfold currently_waiting. rewrite <- (bool_decide_eq_false_2 (p ∈ waitingQueue init)).
  - rewrite <- Hmem. by rewrite bool_decide_eq_true.
  - apply not_elem_of_nil.
Qed.

(** C5, as the handler has it. Cancel removes the caller's id from the
    queue and keeps every other entry in place; the acknowledgement
    [match:cancelled] is sent to the caller when, and only when, its id
    was in the queue; a repeated cancel changes nothing and acknowledges
    nothing. *)
Theorem match_cancel_idempotent s st :
  NoDup (waitingQueue st) →
  waitingQueue (match_cancel s st).1 = filter (λ x, x ≠ s) (waitingQueue st) ∧
  disconnected (match_cancel s st).1 = disconnected st ∧
  (match_cancel s st).2 =
    (if bool_decide (s ∈ waitingQueue st)
     then [to_socket s match_cancelled] else []) ∧
  match_cancel s (match_cancel s st).1 = ((match_cancel s st).1, []).
Proof.
  intros Hnd. rewrite !match_cancel_eq; simpl.
  rewrite remove_id_filter by done. split_and!; try done.
  rewrite <- remove_id_filter by done. rewrite remove_id_idemp by done.
  rewrite bool_decide_eq_false_2; [done|].
  rewrite elem_of_remove_id by done. naive_solver.
Qed.

(** C7. A search that finds a disconnected socket at the head of the queue
    removes that one entry and stops: the searcher is pushed behind the
    remaining entries (its own earlier entry, if any, taken out), nobody
    is notified of a match, and the new head is not tried.  A search on an
    empty queue pushes the searcher. *)
Theorem search_stale_head_no_retry s st :
  (waitingQueue st = [] → match_search s st = (set_queue st [s], [])) ∧
  (∀ d rest,
     waitingQueue st = d :: rest →
     connected st d = false → connected st s = true →
     match_search s st = (set_queue st (remove_id s rest ++ [s]), [])).
Proof.
  split.
  - intros Hq. by rewrite match_search_eq, Hq.
  - intros d rest Hq Hd Hs. rewrite match_search_eq, Hq, remove_id_cons.
    destruct (String.eqb_spec d s) as [->|_]; [congruence|].
    by rewrite Hd.
Qed.

(** C8. The relay handlers leave the server state as it is and emit one
    object to the room of the target [T] named by the inbound [userId]:
    the payload field as received, and [userId] set to the id of the
    sending socket, whatever else the sender put in the message.
    Whatever sockets are connected, that object is delivered to [T], and
    to nobody else, exactly when [T] is one of them and is not the sender;
    otherwise (T is not connected, never was, or is the sender itself)
    nothing is delivered to anyone. *)
Theorem relay_forwards_verified_sender ev sender T (data : gmap string Json) st
    (sockets : gset SocketId) :
  data !! "userId" = Some T →
  (relay ev sender data st).1 = st ∧
  concat (deliver sockets <$> (relay ev sender data st).2) =
    (if bool_decide (T ∈ sockets ∧ T ≠ sender)
     then [(T, relayed ev sender (data !! payload_field ev))] else []) ∧
  (∀ k v, k ≠ "userId" → k ≠ payload_field ev →
     (relay ev sender (<[k:=v]> data) st).2 = (relay ev sender data st).2).
Proof.
  intros HT. unfold relay; simpl. rewrite HT; simpl.
  split_and!; [done| |].
  - rewrite app_nil_r.
    destruct (String.eqb_spec T sender) as [->|Hne];
      repeat case_bool_decide; simpl; naive_solver.
  - intros k v Hk1 Hk2. rewrite !lookup_insert_ne by done. by rewrite HT.
Qed.
End broker_properties.

(** ** The peer transport *)

Section transport_facts.
Import WebRTC.
Implicit Types (pc : RTCPeerConnection) (c : RTCIceCandidateInit).



(** A remote offer on a fresh connection, then the generated answer. *)
Lemma answer_remote_offer o :
  sdp_type o = Some offer →
  ∃ pc1 pc2,
    setRemoteDescription o new_connection = Some pc1 ∧
    createAnswer pc1 = Some (generated answer) ∧
    setLocalDescription (generated answer) pc1 = Some pc2 ∧
    applied pc2 = [SetRemote o; SetLocal (generated answer)] ∧
    signalingState pc2 = stable ∧
    remoteDescription pc2 = Some o.
Proof.
  intros Ho. unfold setRemoteDescription, new_connection; simpl. rewrite Ho.
  eexists _, _. split_and!; reflexivity.
Qed.

End transport_facts.

(** ** The socket provider *)

Section socket_provider_facts.
Import WebRTC SocketContext.
Implicit Types (st : State) (pc : RTCPeerConnection).

Lemma cleanupPeerConnection_eq userId st :
  cleanupPeerConnection userId st =
    mkState (socket_id st) (isConnected st) (isSearching st) (isCancelling st)
      (delete userId (peerConnections st))
      (delete userId (pendingCandidates st))
      (delete userId (allowedPairs st)).
Proof.
  unfold cleanupPeerConnection.
  destruct (peerConnections st !! userId) eqn:Hpc; simpl; [done|].
  by rewrite (delete_id (peerConnections st)).
Qed.

(** [r] is [st] with the entries of the keys of [m] dropped from the three
    maps. *)
Definition swept {V} (m : gmap string V) st (r : State) : Prop :=
  socket_id r = socket_id st ∧ isConnected r = isConnected st ∧
  isSearching r = isSearching st ∧ isCancelling r = isCancelling st ∧
  (∀ k, peerConnections r !! k =
        match m !! k with Some _ => None | None => peerConnections st !! k end) ∧
  (∀ k, pendingCandidates r !! k =
        match m !! k with Some _ => None | None => pendingCandidates st !! k end) ∧
  (∀ k, allowedPairs r !! k =
        match m !! k with Some _ => None | None => allowedPairs st !! k end).

(** What [forEach(cleanupPeerConnection)] over the keys of [m] leaves. *)
Lemma cleanup_fold {V} (m : gmap string V) st :
  swept m st (map_fold (λ userId _ acc, cleanupPeerConnection userId acc) st m).
Proof.
  apply (map_fold_weak_ind (λ r m, swept m st r)).
  - unfold swept. split_and!; try done; intros k; by rewrite lookup_empty.
  - intros i x m' r Hi (? & ? & ? & ? & Hp & Hq & Ha).
    unfold swept. rewrite cleanupPeerConnection_eq; simpl.
    split_and!; try done;
      intros k; destruct (decide (i = k)) as [->|Hne];
      rewrite ?lookup_delete_eq, ?lookup_insert_eq,
              ?lookup_delete_ne, ?lookup_insert_ne by done; auto.
Qed.

Lemma cleanup_all_peerConnections st : peerConnections (cleanup_all st) = ∅.
Proof.
  apply map_empty. intros k.
  destruct (cleanup_fold (peerConnections st) st) as (_ & _ & _ & _ & Hp & _).
  unfold cleanup_all. rewrite Hp. by destruct (peerConnections st !! k) eqn:E.
Qed.

Lemma getOrCreatePeerConnection_spec userId st :
  ∃ pc,
    getOrCreatePeerConnection userId st =
      (pc, set_peerConnections (<[userId := pc]> (peerConnections st)) st) ∧
    (pc = new_connection ∧
       (peerConnections st !! userId = None ∨
        ∃ old, peerConnections st !! userId = Some old ∧
               connectionState old = conn_closed)
     ∨ peerConnections st !! userId = Some pc ∧ connectionState pc ≠ conn_closed).
Proof.
  unfold getOrCreatePeerConnection.
  destruct (peerConnections st !! userId) as [pc|] eqn:Hpc.
  - case_bool_decide.
    + exists new_connection. split; [done|]. left. eauto.
    + exists pc. split; [|by right].
      rewrite insert_id by done. by destruct st.
  - exists new_connection. split; [done|]. left. eauto.
Qed.

Lemma authorized_true st userId :
  authorized st userId = true ↔ is_Some (allowedPairs st !! userId).
Proof. apply bool_decide_eq_true. Qed.

Lemma authorized_false st userId :
  authorized st userId = false ↔ allowedPairs st !! userId = None.
Proof.
  unfold authorized. rewrite bool_decide_eq_false.
  by rewrite eq_None_not_Some.
Qed.

(** The maps are aligned: every key of [peerConnections] or of
    [pendingCandidates] is a key of [allowedPairs]. *)
Definition aligned st : Prop :=
  dom (peerConnections st) ∪ dom (pendingCandidates st) ⊆ dom (allowedPairs st).

Lemma aligned_lookup st :
  aligned st ↔
  ∀ k, is_Some (peerConnections st !! k) ∨ is_Some (pendingCandidates st !! k) →
       is_Some (allowedPairs st !! k).
Proof.
  unfold aligned. split.
  - intros H k Hk. apply elem_of_dom, H, elem_of_union.
    by rewrite !elem_of_dom.
  - intros H k Hk. apply elem_of_dom, H.
    apply elem_of_union in Hk. by rewrite !elem_of_dom in Hk.
Qed.
End socket_provider_facts.

Section socket_provider_alignment.
Import WebRTC SocketContext.
Implicit Types (st : State) (pc : RTCPeerConnection).

Lemma authorized_dom st userId :
  authorized st userId = true → userId ∈ dom (allowedPairs st).
Proof. intros H. by apply elem_of_dom, authorized_true. Qed.

Lemma aligned_cleanup userId st :
  aligned st → aligned (cleanupPeerConnection userId st).
Proof.
  unfold aligned. rewrite cleanupPeerConnection_eq; simpl. set_solver.
Qed.

Lemma aligned_swept {V} (m : gmap string V) st r :
  swept m st r → aligned st → aligned r.
Proof.
  intros (_ & _ & _ & _ & Hp & Hq & Ha). rewrite !aligned_lookup.
  intros Hal k. rewrite Hp, Hq, Ha. destruct (m !! k).
  - intros [[? [=]]|[? [=]]].
  - apply Hal.
Qed.

Lemma aligned_set_flags a b c st : aligned (set_flags a b c st) ↔ aligned st.
Proof. done. Qed.

Lemma aligned_cleanup_all st : aligned st → aligned (cleanup_all st).
Proof. apply aligned_swept with (m := peerConnections st), cleanup_fold. Qed.

Ltac case_handler :=
  repeat match goal with
  | |- context [getOrCreatePeerConnection ?u ?st] =>
      unfold getOrCreatePeerConnection
  | |- context [match ?x with _ => _ end] =>
      lazymatch x with
      | context [match _ with _ => _ end] => fail
      | _ => destruct x eqn:?
      end
  end.

Lemma handle_aligned e st : aligned st → aligned (handle e st).1.
Proof.
  intros Hal. destruct e as [| |peerId|userId o|userId a|userId c|userId s| |];
    simpl.
  - done.
  - unfold on_disconnect, aligned; simpl.
    rewrite cleanup_all_peerConnections, !dom_empty_L. set_solver.
  - unfold on_match_found. case_handler; simplify_eq/=;
      unfold aligned in *; simpl; set_solver.
  - unfold on_webrtc_offer.
    destruct (authorized st userId) eqn:Hauth; simpl; [|done].
    apply authorized_dom in Hauth.
    case_handler; simplify_eq/=; rewrite ?cleanupPeerConnection_eq;
      unfold aligned in *; simpl; set_solver.
  - unfold on_webrtc_answer.
    destruct (authorized st userId) eqn:Hauth; simpl; [|done].
    apply authorized_dom in Hauth.
    case_handler; simplify_eq/=; rewrite ?cleanupPeerConnection_eq;
      unfold aligned in *; simpl; set_solver.
  - unfold on_webrtc_candidate, queue_candidate.
    destruct (authorized st userId) eqn:Hauth; simpl; [|done].
    apply authorized_dom in Hauth.
    case_handler; simplify_eq/=; unfold aligned in *; simpl; set_solver.
  - unfold on_connectionstatechange.
    destruct (peerConnections st !! userId) as [pc|] eqn:Hpc; [|done].
    assert (userId ∈ dom (peerConnections st)) by (by apply elem_of_dom).
    case_handler; simplify_eq/=; rewrite ?cleanupPeerConnection_eq;
      unfold aligned in *; simpl; set_solver.
  - unfold startSearching. by case_handler.
  - unfold stopSearching. case_handler; simpl; [|done].
    by apply aligned_cleanup_all.
Qed.

Lemma run_aligned evs st : aligned st → aligned (run st evs).
Proof.
  revert st. induction evs as [|e evs IH]; intros st Hal; [done|].
  apply IH, handle_aligned, Hal.
Qed.
End socket_provider_alignment.

Section socket_provider_negotiation.
Import WebRTC SocketContext.
Implicit Types (st : State) (pc : RTCPeerConnection).

#[local] Arguments run : simpl never.



















Lemma guard_drops userId st :
  allowedPairs st !! userId = None →
  (∀ o, on_webrtc_offer userId o st = (st, [])) ∧
  (∀ a, on_webrtc_answer userId a st = (st, [])) ∧
  (∀ c, on_webrtc_candidate userId c st = (st, [])).
Proof.
  intros Hauth%authorized_false.
  unfold on_webrtc_offer, on_webrtc_answer, on_webrtc_candidate.
  by rewrite Hauth.
Qed.

(** C6. A message whose sender is not a key of [allowedPairs] is dropped:
    offer, answer and candidate listeners leave the state as it is and
    send nothing.  Once the sender has been announced by [match:found] it
    passes the guard. *)
Theorem unauthorized_message_dropped userId st :
  allowedPairs st !! userId = None →
  (∀ o, on_webrtc_offer userId o st = (st, [])) ∧
  (∀ a, on_webrtc_answer userId a st = (st, [])) ∧
  (∀ c, on_webrtc_candidate userId c st = (st, [])) ∧
  authorized (on_match_found userId st).1 userId = true.
Proof.
  intros Hno. destruct (guard_drops userId st Hno) as (? & ? & ?).
  split_and!; try done.
  apply authorized_true. unfold on_match_found, getOrCreatePeerConnection.
  repeat case_match; simplify_eq/=; by rewrite lookup_insert_eq.
Qed.

(** C10. In every state the provider reaches, the keys of
    [peerConnections] and of [pendingCandidates] are keys of
    [allowedPairs].  Tearing a peer down removes its entry from the three
    maps and touches no other entry, after which an offer, answer or
    candidate of that peer is dropped; the cleanup on socket disconnect
    empties the three maps. *)
Theorem per_peer_maps_aligned me (evs : list Event) :
  let st := run (init me) evs in
  aligned st ∧
  (∀ peer,
     let st' := cleanupPeerConnection peer st in
     peerConnections st' = delete peer (peerConnections st) ∧
     pendingCandidates st' = delete peer (pendingCandidates st) ∧
     allowedPairs st' = delete peer (allowedPairs st) ∧
     aligned st' ∧
     (∀ o, on_webrtc_offer peer o st' = (st', [])) ∧
     (∀ a, on_webrtc_answer peer a st' = (st', [])) ∧
     (∀ c, on_webrtc_candidate peer c st' = (st', []))) ∧
  peerConnections (on_disconnect st).1 = ∅ ∧
  pendingCandidates (on_disconnect st).1 = ∅ ∧
  allowedPairs (on_disconnect st).1 = ∅.
Proof.
  intros st. assert (aligned st) as Hal.
  { apply run_aligned. unfold aligned; simpl. set_solver. }
  split_and!; try done.
  - intros peer st'. subst st'.
    assert (allowedPairs (cleanupPeerConnection peer st) !! peer = None) as Hno.
    { rewrite cleanupPeerConnection_eq; simpl. apply lookup_delete_eq. }
    destruct (guard_drops peer _ Hno) as (? & ? & ?).
    split_and!; try done; try (by rewrite cleanupPeerConnection_eq).
    by apply aligned_cleanup.
  - simpl. apply cleanup_all_peerConnections.
Qed.
End socket_provider_negotiation.

(** ** The video provider *)

Section video_provider_properties.
Import WebRTC VideoContext.
Implicit Types (r : Render) (w : World).

Lemma close_idemp pc : close (close pc) = close pc.
Proof.
  unfold close. destruct (decide (signalingState pc = closed)) as [H|H].
  - rewrite (bool_decide_eq_true_2 _ H). by rewrite (bool_decide_eq_true_2 _ H).
  - by rewrite (bool_decide_eq_false_2 _ H).
Qed.

Lemma close_closed pc : signalingState (close pc) = closed.
Proof. unfold close. by case_bool_decide. Qed.

Lemma close_open pc :
  signalingState pc ≠ closed → applied (close pc) = applied pc ++ [Close].
Proof. intros H. unfold close. by rewrite bool_decide_eq_false_2. Qed.

Lemma stop_tracks_idemp s : stop_tracks (stop_tracks s) = stop_tracks s.
Proof. unfold stop_tracks; simpl. by rewrite map_map. Qed.

Lemma alter_idemp {V} (f : V → V) (h : nat) (m : gmap nat V) :
  (∀ x, f (f x) = f x) → alter f h (alter f h m) = alter f h m.
Proof.
  intros Hf. apply map_eq. intros k. destruct (decide (h = k)) as [->|Hne].
  - rewrite !lookup_alter_eq. destruct (m !! k); simpl; by rewrite ?Hf.
  - by rewrite !lookup_alter_ne.
Qed.

(** A teardown request made while [isEnding] is set is dropped. *)
Lemma endChat_coalesced r w : isEnding r = true → endChat r w = w.
Proof. intros H. unfold endChat. by rewrite H. Qed.

(** What a teardown that is not dropped leaves, field by field. *)
Lemma endChat_eq r w :
  isEnding r = false →
  endChat r w =
    mkWorld
      (mkRender (socket (next w)) (isConnected (next w))
         (match remoteStream r with
          | Some _ => None
          | None => remoteStream (next w)
          end)
         false false false None
         (match peerConnection r with
          | Some _ => None
          | None => peerConnection (next w)
          end)
         [])
      (remoteVideo_mounted w)
      (if remoteVideo_mounted w then None else remoteVideo_srcObject w)
      None
      (match remoteStreamTimeout w with
       | Some t => timers w ∖ {[t]}
       | None => timers w
       end)
      (match peerConnection r with
       | Some h => alter close h (connections w)
       | None => connections w
       end)
      (match remoteStream r with
       | Some s => alter stop_tracks s (streams w)
       | None => streams w
       end)
      (emitted w ++
       if socket r && isConnected r then [emit_match_cancel] else []).
Proof.
  destruct r as [so co rs ch se en er pcn pend].
  destruct w as [[so' co' rs' ch' se' en' er' pcn' pend'] mo src to ti cs ss em].
  simpl. intros ->. unfold endChat.
  destruct so, co, rs, mo, to, pcn; cbn; by rewrite ?app_nil_r.
Qed.

(** C9. [endChat] invoked from the current render, no teardown being in
    progress, leaves the connection closed and cleared, the buffered
    candidates cleared, the remote stream stopped and cleared, and the
    searching and chatting flags false.  A second invocation, whether it
    comes from the same render or from the one that follows, leaves
    exactly that state: the connection object is the one the first
    invocation closed, its history showing a single close. *)
Theorem endChat_twice_as_once w :
  isEnding (next w) = false →
  let r := next w in
  let w1 := endChat r w in
  (peerConnection (next w1) = None ∧ pendingCandidates (next w1) = [] ∧
   remoteStream (next w1) = None ∧
   isSearching (next w1) = false ∧ isChatting (next w1) = false ∧
   isEnding (next w1) = false) ∧
  (∀ h pc, peerConnection r = Some h → connections w !! h = Some pc →
     connections w1 !! h = Some (close pc) ∧
     signalingState (close pc) = closed ∧
     (signalingState pc ≠ closed → applied (close pc) = applied pc ++ [Close])) ∧
  (∀ s ms, remoteStream r = Some s → streams w !! s = Some ms →
     streams w1 !! s = Some (stop_tracks ms) ∧
     Forall (λ live, live = false) (tracks_live (stop_tracks ms))) ∧
  (∀ r', r' = r ∨ r' = next w1 → state_of (endChat r' w1) = state_of w1).
Proof.
  intros Hend r w1.
  assert (isEnding (next w1) = false) as Hend1.
  { subst w1 r. by rewrite endChat_eq. }
  assert (w1 = endChat r w) as Hw1 by done. clearbody w1.
  rewrite endChat_eq in Hw1 by done. subst r.
  split_and!.
  - rewrite Hw1; simpl. by destruct (peerConnection (next w)).
  - by rewrite Hw1.
  - rewrite Hw1; simpl. by destruct (remoteStream (next w)).
  - by rewrite Hw1.
  - by rewrite Hw1.
  - done.
  - intros h pc Hh Hpc. rewrite Hw1; simpl. rewrite Hh. split_and!.
    + by rewrite lookup_alter_eq, Hpc.
    + apply close_closed.
    + apply close_open.
  - intros s ms Hs Hms. rewrite Hw1; simpl. rewrite Hs. split.
    + by rewrite lookup_alter_eq, Hms.
    + simpl. apply Forall_forall. intros x Hx.
      apply list_elem_of_fmap in Hx as (? & -> & _). done.
  - intros r' Hr'.
    assert (isEnding r' = false) as Hend' by (by destruct Hr' as [->| ->]).
    rewrite (endChat_eq r' w1 Hend'). unfold state_of.
    destruct Hr' as [->| ->]; rewrite Hw1; simpl.
    + destruct (peerConnection (next w)), (remoteStream (next w)),
        (remoteVideo_mounted w); simpl;
        rewrite ?(alter_idemp close) by apply close_idemp;
        rewrite ?(alter_idemp stop_tracks) by apply stop_tracks_idemp;
        done.
    + by destruct (peerConnection (next w)), (remoteStream (next w)),
        (remoteVideo_mounted w).
Qed.
(** X24. The candidate handler of the video provider: a candidate is
    appended to the buffer while the connection of the render has no remote description
    (or the render has no connection), and handed to the connection once it
    has one. *)
Lemma handleIceCandidate_by_remote_description util r c w :
  (match peerConnection r with
   | None => True
   | Some h => ∃ pc, connections w !! h = Some pc ∧ remoteDescription pc = None
   end →
   pendingCandidates (next (handleIceCandidate util r (Some c) w))
     = pendingCandidates (next w) ++ [c] ∧
   connections (handleIceCandidate util r (Some c) w) = connections w) ∧
  (∀ h pc pc', peerConnection r = Some h → connections w !! h = Some pc →
     is_Some (remoteDescription pc) → util pc c = Some pc' →
     connections (handleIceCandidate util r (Some c) w) !! h = Some pc' ∧
     pendingCandidates (next (handleIceCandidate util r (Some c) w))
       = pendingCandidates (next w)).
Proof.
  unfold handleIceCandidate. split.
  - destruct (peerConnection r) as [h|]; [|done].
    intros (pc & -> & Hd). rewrite Hd.
    by rewrite bool_decide_eq_false_2 by (by intros [? [=]]).
  - intros h pc pc' -> -> Hd ->. rewrite (bool_decide_eq_true_2 _ Hd); simpl.
    by rewrite lookup_insert_eq.
Qed.
End video_provider_properties.

(** ** Answers outside the offering state *)

Section answer_handling.
Import WebRTC.

(** The socket provider drops an answer whenever the connection is not in
    [have-local-offer], whatever the state is. *)
Lemma on_webrtc_answer_not_offering peer a st pc :
  SocketContext.authorized st peer = true →
  SocketContext.peerConnections st !! peer = Some pc →
  signalingState pc ≠ have_local_offer →
  SocketContext.on_webrtc_answer peer a st = (st, []).
Proof.
  intros Hauth Hpc Hs. unfold SocketContext.on_webrtc_answer.
  rewrite Hauth, Hpc; simpl. by rewrite bool_decide_eq_false_2.
Qed.

(** The video provider ignores an answer in [stable] and ends the chat in
    every state other than [stable] and [have-local-offer]. *)
Lemma handleAnswer_by_state util r a w h pc :
  VideoContext.peerConnection r = Some h →
  VideoContext.connections w !! h = Some pc →
  is_Some (sdp_type a) →
  (signalingState pc = stable →
   VideoContext.handleAnswer util r (Some a) w = w) ∧
  (signalingState pc ≠ stable → signalingState pc ≠ have_local_offer →
   VideoContext.handleAnswer util r (Some a) w = VideoContext.endChat r w).
Proof.
  intros Hh Hpc Ha. unfold VideoContext.handleAnswer. rewrite Hh, Hpc.
  rewrite (bool_decide_eq_true_2 _ Ha); simpl. split.
  - intros Hs. by rewrite (bool_decide_eq_true_2 _ Hs).
  - intros Hs1 Hs2. rewrite (bool_decide_eq_false_2 _ Hs1).
    by rewrite (bool_decide_eq_false_2 _ Hs2).
Qed.

(** The client ["a"], matched with ["b"], has sent its offer and applied a
    provisional answer of ["b"]. *)
Definition provisional_answered : SocketContext.State :=
  SocketContext.run (SocketContext.init "a")
    [SocketContext.Connect; SocketContext.MatchFound "b";
     SocketContext.Answer "b" (mkSdp (Some pranswer) "v=0")].

(** The video provider holding one connection, in [have-remote-pranswer]. *)
Definition provisional_answered_video : VideoContext.World :=
  VideoContext.mkWorld
    (VideoContext.mkRender true true None true false false None (Some 0%nat) [])
    false None None ∅
    {[ 0%nat := mkPC have_remote_pranswer conn_connecting None
                  (Some (generated offer)) None
                  (Some (mkSdp (Some pranswer) "v=0"))
                  [SetLocal (generated offer);
                   SetRemote (mkSdp (Some pranswer) "v=0")] ]}
    ∅ [].

(** C4, the two answer handlers side by side.  With the connection to the
    matched peer in [have-remote-pranswer], the socket provider drops the
    final answer and keeps the session as it is, where the video provider
    ends the chat and closes the connection. *)
Theorem answer_in_other_state_not_torn_down :
  let a := mkSdp (Some answer) "v=0" in
  (SocketContext.authorized provisional_answered "b" = true ∧
   signalingState <$> SocketContext.peerConnections provisional_answered !! "b"
     = Some have_remote_pranswer ∧
   SocketContext.on_webrtc_answer "b" a provisional_answered
     = (provisional_answered, [])) ∧
  (let w := provisional_answered_video in
   let w' := VideoContext.handleAnswer (λ pc c, addIceCandidate c pc)
               (VideoContext.next w) (Some a) w in
   w' = VideoContext.endChat (VideoContext.next w) w ∧
   VideoContext.peerConnection (VideoContext.next w') = None ∧
   signalingState <$> VideoContext.connections w' !! 0%nat = Some closed).
Proof. vm_compute. repeat split. Qed.
End answer_handling.

(** ** Scenarios *)

Section scenarios.
Import WebRTC.

(** X6. The two sockets of a match are different sockets: a search never
    pairs a socket with itself, even when the socket is queued already. *)
Lemma matched_peers_distinct s st peer :
  NoDup (Server.waitingQueue st) →
  Server.to_socket s (Server.match_found peer) ∈ (Server.match_search s st).2 →
  peer ≠ s.
Proof.
  intros Hnd. rewrite match_search_eq.
  pose proof (elem_of_remove_id s (Server.waitingQueue st) peer Hnd) as Hel.
  pose proof (elem_of_remove_id s (Server.waitingQueue st) s Hnd) as Hs.
  destruct (remove_id s (Server.waitingQueue st)) as [|p q'] eqn:Hq; simpl.
  - by intros ?%elem_of_nil.
  - destruct (Server.connected st p); simpl; [|by intros ?%elem_of_nil].
    rewrite !elem_of_cons. intros [[= ->]|[[= <- ->]|?%elem_of_nil]]; [| |done].
    + apply Hel. by left.
    + apply Hs. by left.
Qed.

(** Alice searches and cancels, Bob and Carol are paired, Dave searches
    and leaves, Erin is left waiting. *)
Lemma waiting_queue_invariant_witness :
  let evs := [Server.Search "alice"; Server.Cancel "alice";
              Server.Search "bob"; Server.Search "carol";
              Server.Search "dave"; Server.Disconnect "dave";
              Server.Search "erin"] in
  Server.well_formed Server.init evs ∧
  Server.waitingQueue (Server.run Server.init evs).1 = ["erin"] ∧
  ∀ p, p ∈ Server.waitingQueue (Server.run Server.init evs).1 ↔
       Server.currently_waiting p (Server.run Server.init evs).2 = true.
Proof.
  intros evs.
  assert (Server.well_formed Server.init evs) as Hwf
    by (vm_compute; repeat split).
  split; [exact Hwf|]. split; [reflexivity|].
  exact (proj2 (waiting_queue_invariant evs) Hwf).
Defined.

(** Cancel by a socket that is not queued: nothing is sent. *)
Lemma cancel_absent_sends_no_ack :
  Server.match_cancel "alice" Server.init = (Server.init, []) ∧
  ¬ (Server.to_socket "alice" Server.match_cancelled
       ∈ (Server.match_cancel "alice" Server.init).2).
Proof. split; [reflexivity|]. apply not_elem_of_nil. Qed.

Lemma match_cancel_idempotent_witness :
  let st := Server.mkState ["alice"; "bob"] ∅ in
  NoDup (Server.waitingQueue st) ∧
  Server.waitingQueue (Server.match_cancel "alice" st).1 = ["bob"] ∧
  (Server.match_cancel "alice" st).2
    = [Server.to_socket "alice" Server.match_cancelled] ∧
  Server.match_cancel "alice" (Server.match_cancel "alice" st).1
    = ((Server.match_cancel "alice" st).1, []).
Proof.
  intros st.
  assert (NoDup (Server.waitingQueue st)) as Hnd
    by (apply NoDup_cons; split; [by intros [=]%list_elem_of_singleton
                                 |apply NoDup_singleton]).
  destruct (match_cancel_idempotent "alice" st Hnd) as (_ & _ & _ & Hagain).
  split; [exact Hnd|]. split; [reflexivity|]. split; [reflexivity|exact Hagain].
Defined.

(** A departed socket heads the queue, in front of a live one. *)
Lemma search_stale_head_no_retry_witness :
  let st := Server.mkState ["ghost"; "bob"] {["ghost"]} in
  Server.connected st "ghost" = false ∧ Server.connected st "alice" = true ∧
  Server.match_search "alice" st = (Server.set_queue st ["bob"; "alice"], []).
Proof.
  intros st. split; [reflexivity|]. split; [reflexivity|].
  exact (proj2 (search_stale_head_no_retry "alice" st) "ghost" ["bob"]
           eq_refl eq_refl eq_refl).
Defined.

(** Alice, connected, addresses an offer to herself: nobody receives it. *)
Lemma relay_to_self_not_delivered :
  let data : gmap string string := {[ "userId" := "alice"; "offer" := "sdp" ]} in
  let sockets : gset string := {[ "alice"; "bob" ]} in
  data !! "userId" = Some "alice" ∧ "alice" ∈ sockets ∧
  concat (Server.deliver sockets <$>
            (Server.relay Server.webrtc_offer "alice" data Server.init).2)
    = [].
Proof. intros data sockets. split; [reflexivity|]. split; [set_solver|reflexivity]. Qed.

(** Alice sends an offer to Bob and claims to be Mallory; Bob is connected
    or has left. *)
Lemma relay_forwards_verified_sender_witness :
  let data : gmap string string :=
    {[ "userId" := "bob"; "offer" := "sdp"; "from" := "mallory" ]} in
  data !! "userId" = Some "bob" ∧
  (Server.relay Server.webrtc_offer "alice" data Server.init).1 = Server.init ∧
  concat (Server.deliver {[ "alice"; "bob" ]} <$>
            (Server.relay Server.webrtc_offer "alice" data Server.init).2)
    = [("bob", Server.relayed Server.webrtc_offer "alice" (Some "sdp"))] ∧
  concat (Server.deliver {[ "alice" ]} <$>
            (Server.relay Server.webrtc_offer "alice" data Server.init).2)
    = [].
Proof.
  intros data.
  assert (data !! "userId" = Some "bob") as Hto by reflexivity.
  destruct (relay_forwards_verified_sender Server.webrtc_offer "alice" "bob"
              data Server.init {[ "alice"; "bob" ]} Hto) as (Hst & Hout & _).
  destruct (relay_forwards_verified_sender Server.webrtc_offer "alice" "bob"
              data Server.init {[ "alice" ]} Hto) as (_ & Hdrop & _).
  split; [exact Hto|]. split; [exact Hst|]. split; [exact Hout|exact Hdrop].
Defined.

Definition candidate_1 := mkCandidate "candidate:1" (Some "0") (Some 0%N).
Definition candidate_bare := mkCandidate "candidate:4" None None.





Lemma unauthorized_message_dropped_witness :
  let st := (SocketContext.on_match_found "bob" (SocketContext.init "alice")).1 in
  SocketContext.allowedPairs st !! "mallory" = None ∧
  SocketContext.on_webrtc_offer "mallory" (mkSdp (Some offer) "v=0") st = (st, []) ∧
  SocketContext.on_webrtc_candidate "mallory" candidate_1 st = (st, []).
Proof.
  intros st.
  assert (SocketContext.allowedPairs st !! "mallory" = None) as Hno by reflexivity.
  destruct (unauthorized_message_dropped "mallory" st Hno) as (Ho & _ & Hc & _).
  split; [exact Hno|]. split; [apply Ho|apply Hc].
Defined.

Lemma endChat_twice_as_once_witness :
  let w := provisional_answered_video in
  let w1 := VideoContext.endChat (VideoContext.next w) w in
  VideoContext.isEnding (VideoContext.next w) = false ∧
  VideoContext.state_of (VideoContext.endChat (VideoContext.next w) w1)
    = VideoContext.state_of w1 ∧
  VideoContext.state_of (VideoContext.endChat (VideoContext.next w1) w1)
    = VideoContext.state_of w1.
Proof.
  intros w w1.
  assert (VideoContext.isEnding (VideoContext.next w) = false) as Hend
    by reflexivity.
  destruct (endChat_twice_as_once w Hend) as (_ & _ & _ & Hsame).
  split; [exact Hend|]. split; apply Hsame; [by left|by right].
Defined.
End scenarios.

(** ** More on the waiting queue *)

Section broker_more.
Import JsArray Server.
Implicit Types (p s : SocketId) (q : list SocketId) (st : State).

Lemma server_run_app st evs1 evs2 :
  run st (evs1 ++ evs2) =
    ((run (run st evs1).1 evs2).1,
     (run st evs1).2 ++ (run (run st evs1).1 evs2).2).
Proof.
  revert st. induction evs1 as [|e evs1 IH]; intros st.
  - simpl. by destruct (run st evs2).
  - rewrite <- app_comm_cons, !run_cons, IH. done.
Qed.

Lemma well_formed_app st evs1 evs2 :
  well_formed st (evs1 ++ evs2) ↔
  well_formed st evs1 ∧ well_formed (run st evs1).1 evs2.
Proof.
  revert st. induction evs1 as [|e evs1 IH]; intros st.
  - simpl. naive_solver.
  - rewrite <- app_comm_cons, run_cons. simpl. rewrite IH. naive_solver.
Qed.

Lemma length_remove_id s q : (length (remove_id s q) ≤ length q)%nat.
Proof.
  induction q as [|x q IH]; [done|]. rewrite remove_id_cons.
  destruct (String.eqb x s); simpl; lia.
Qed.

Lemma handle_disconnected e st :
  disconnected st ⊆ disconnected (handle e st).1.
Proof.
  destruct e as [s|s|s]; simpl.
  - rewrite match_search_eq.
    destruct (remove_id s (waitingQueue st)) as [|peer q']; [done|].
    by destruct (connected st peer).
  - by rewrite match_cancel_eq.
  - rewrite disconnect_eq; simpl. set_solver.
Qed.

(** Who a [match:found] of a handler can be addressed to, and who it can
    name: the socket that raised the event or an entry of the queue. *)
Lemma match_emission_parties e st t other :
  to_socket t (match_found other) ∈ (handle e st).2 →
  (t = subject e ∨ t ∈ waitingQueue st) ∧
  (other = subject e ∨ other ∈ waitingQueue st).
Proof.
  destruct e as [s|s|s]; simpl.
  - rewrite match_search_eq.
    pose proof (remove_id_subseteq s (waitingQueue st)) as Hsub.
    destruct (remove_id s (waitingQueue st)) as [|peer q']; simpl.
    + by intros ?%elem_of_nil.
    + destruct (connected st peer); simpl; [|by intros ?%elem_of_nil].
      assert (peer ∈ waitingQueue st) by (apply Hsub; by left).
      rewrite !elem_of_cons.
      intros [[= -> ->]|[[= -> ->]|?%elem_of_nil]]; [| |done]; auto.
  - rewrite match_cancel_eq; simpl. case_bool_decide.
    + by intros [=]%list_elem_of_singleton.
    + by intros ?%elem_of_nil.
  - rewrite disconnect_eq; simpl. by intros ?%elem_of_nil.
Qed.

(** X1. A search pairs the searcher with the earliest queued socket other
    than itself, when that socket is connected: each of the two is told of
    the other, exactly once, neither stays queued, and the sockets behind
    keep their places. *)
Theorem search_pairs_with_earliest s st peer rest :
  NoDup (waitingQueue st) →
  filter (λ x, x ≠ s) (waitingQueue st) = peer :: rest →
  connected st peer = true →
  match_search s st =
    (set_queue st rest,
     [to_socket s (match_found peer); to_socket peer (match_found s)]) ∧
  peer ≠ s ∧ (s ∉ rest) ∧ (peer ∉ rest).
Proof.
  intros Hnd Hq Hlive. rewrite match_search_eq, remove_id_filter, Hq, Hlive by done.
  assert (NoDup (peer :: rest)) as [Hpeer _]%NoDup_cons.
  { rewrite <- Hq. by apply NoDup_filter. }
  assert (∀ x, x ∈ peer :: rest → x ≠ s) as Hne.
  { intros x. rewrite <- Hq, list_elem_of_filter. naive_solver. }
  split_and!; [done| | |done].
  - apply Hne. by left.
  - intros Hs. by apply (Hne s); [right|].
Qed.

Lemma handle_short e st :
  queue_ok st → connected st (subject e) = true →
  (length (waitingQueue st) ≤ 1)%nat →
  (length (waitingQueue (handle e st).1) ≤ 1)%nat.
Proof.
  intros [Hnd Hlive] Hsub Hlen.
  pose proof (length_remove_id (subject e) (waitingQueue st)) as Hrem.
  pose proof (remove_id_subseteq (subject e) (waitingQueue st)) as Hin.
  destruct e as [s|s|s]; simpl in *.
  - rewrite match_search_eq.
    destruct (remove_id s (waitingQueue st)) as [|peer q']; simpl; [lia|].
    rewrite connected_true by (apply Hlive, Hin; by left). simpl in *. lia.
  - rewrite match_cancel_eq; simpl. lia.
  - rewrite disconnect_eq; simpl. lia.
Qed.

Lemma run_short evs st :
  queue_ok st → well_formed st evs →
  (length (waitingQueue st) ≤ 1)%nat →
  (length (waitingQueue (run st evs).1) ≤ 1)%nat.
Proof.
  revert st. induction evs as [|e evs IH]; intros st Hok Hwf Hlen; [done|].
  destruct Hwf as [Hsub Hwf]. rewrite run_cons; simpl.
  apply IH; [|done|by apply handle_short].
  apply handle_step; [done|]. by apply bool_decide_eq_true in Hsub.
Qed.

(** X2. As long as sockets raise no event after their disconnect, at most
    one socket is waiting at any time: a second searcher is paired with the
    first rather than queued behind it. *)
Theorem at_most_one_waiting (evs : list Event) :
  well_formed init evs →
  (length (waitingQueue (run init evs).1) ≤ 1)%nat.
Proof.
  intros Hwf. apply run_short; [apply queue_ok_init|done|simpl; lia].
Qed.

Lemma no_match_for_gone p evs st :
  queue_ok st → p ∈ disconnected st → well_formed st evs →
  ∀ e out t other, (e, out) ∈ (run st evs).2 →
    to_socket t (match_found other) ∈ out → t ≠ p ∧ other ≠ p.
Proof.
  revert st. induction evs as [|e evs IH]; intros st Hok Hp Hwf e' out t other.
  - by intros ?%elem_of_nil.
  - destruct Hwf as [Hsub%bool_decide_eq_true Hwf]. rewrite run_cons; simpl.
    rewrite elem_of_cons. intros [[= -> ->]|Hin] Hout.
    + destruct Hok as [_ Hlive].
      assert (∀ x, x = subject e ∨ x ∈ waitingQueue st → x ≠ p) as Hne.
      { intros x [->|Hx] Heq; [by rewrite Heq in Hsub|].
        subst x. by eapply Hlive. }
      apply match_emission_parties in Hout as [Ht Ho]. split; by apply Hne.
    + eapply (IH (handle e st).1); [| |done|done|done].
      * by apply handle_step.
      * by apply handle_disconnected.
Qed.

(** X3. Once a socket has disconnected, no later [match:found] is sent to
    it or names it, whatever it had queued before. *)
Theorem disconnected_never_matched (evs1 evs2 : list Event) p :
  well_formed init (evs1 ++ Disconnect p :: evs2) →
  ∀ e out t other,
    (e, out) ∈ (run (run init (evs1 ++ [Disconnect p])).1 evs2).2 →
    to_socket t (match_found other) ∈ out → t ≠ p ∧ other ≠ p.
Proof.
  intros Hwf.
  replace (evs1 ++ Disconnect p :: evs2)
    with ((evs1 ++ [Disconnect p]) ++ evs2) in Hwf by (by rewrite <- app_assoc).
  apply well_formed_app in Hwf as [Hwf1 Hwf2].
  apply no_match_for_gone; [|clear Hwf2|done].
  - by apply run_invariant; [apply queue_ok_init|].
  - rewrite server_run_app; simpl. rewrite disconnect_eq; simpl. set_solver.
Qed.

(** X4. A search on an empty queue followed by a cancel of the same socket
    brings the server back to the state it was in: the socket was told of
    no match, and the cancel is acknowledged. *)
Theorem search_then_cancel_restores s st :
  waitingQueue st = [] →
  (match_search s st).2 = [] ∧
  match_cancel s (match_search s st).1 = (st, [to_socket s match_cancelled]).
Proof.
  intros Hq. rewrite match_search_eq, Hq; simpl. split; [done|].
  rewrite match_cancel_eq; simpl. rewrite remove_id_cons, String.eqb_refl.
  rewrite bool_decide_eq_true_2 by (by left).
  destruct st; simpl in *; by subst.
Qed.

(** X5. A disconnect takes the socket out of the queue as a cancel does,
    marks it as gone and sends nothing; handled a second time it changes
    nothing. *)
Theorem disconnect_removes_silently s st :
  NoDup (waitingQueue st) →
  (disconnect s st).2 = [] ∧
  waitingQueue (disconnect s st).1 = waitingQueue (match_cancel s st).1 ∧
  (s ∉ waitingQueue (disconnect s st).1) ∧
  connected (disconnect s st).1 s = false ∧
  disconnect s (disconnect s st).1 = ((disconnect s st).1, []).
Proof.
  intros Hnd. rewrite !disconnect_eq, match_cancel_eq; simpl.
  split_and!; try done.
  - rewrite elem_of_remove_id by done. naive_solver.
  - apply connected_false; simpl. set_solver.
  - rewrite remove_id_idemp by done. do 2 f_equal. set_solver.
Qed.
End broker_more.

(** ** More on the socket provider *)

Section socket_provider_more.
Import WebRTC SocketContext.
Implicit Types (st : State) (pc : RTCPeerConnection).

Lemma cleanup_all_flags st :
  socket_id (cleanup_all st) = socket_id st ∧
  isConnected (cleanup_all st) = isConnected st ∧
  isSearching (cleanup_all st) = isSearching st ∧
  isCancelling (cleanup_all st) = isCancelling st.
Proof.
  destruct (cleanup_fold (peerConnections st) st) as (? & ? & ? & ? & _).
  by unfold cleanup_all.
Qed.

Lemma cleanupPeerConnection_flags userId st :
  isSearching (cleanupPeerConnection userId st) = isSearching st.
Proof. by rewrite cleanupPeerConnection_eq. Qed.

(** X7. [startSearching] sends [match:search] exactly when the socket is
    connected and no search is running, and [stopSearching] sends
    [match:cancel] exactly when the socket is connected, a search is
    running and no cancel is under way; either of them called a second
    time in a row sends nothing and changes nothing, and a stop leaves no
    connection behind. *)
Theorem search_controls_fire_once st :
  ((startSearching st).2 =
     if isConnected st && negb (isSearching st) then [emit_match_search] else []) ∧
  startSearching (startSearching st).1 = ((startSearching st).1, []) ∧
  ((stopSearching st).2 =
     if isConnected st && isSearching st && negb (isCancelling st)
     then [emit_match_cancel] else []) ∧
  stopSearching (stopSearching st).1 = ((stopSearching st).1, []) ∧
  (isConnected st && isSearching st && negb (isCancelling st) = true →
   peerConnections (stopSearching st).1 = ∅ ∧
   isSearching (stopSearching st).1 = false).
Proof.
  destruct (cleanup_all_flags (set_flags (isConnected st) false true st))
    as (_ & Hc & Hs & Hk). simpl in Hc, Hs, Hk.
  unfold startSearching, stopSearching. split_and!.
  - by destruct (isConnected st && negb (isSearching st)).
  - destruct (isConnected st && negb (isSearching st)) eqn:E; simpl; [|by rewrite E].
    by rewrite andb_false_r.
  - by destruct (isConnected st && isSearching st && negb (isCancelling st)).
  - destruct (isConnected st && isSearching st && negb (isCancelling st)) eqn:E;
      simpl; [|by rewrite E].
    by rewrite Hs, andb_false_r.
  - intros ->; simpl. split; [apply cleanup_all_peerConnections|done].
Qed.

Lemma handle_search_balance e st :
  (cancels (handle e st).2 + Nat.b2n (isSearching (handle e st).1)
   ≤ searches (handle e st).2 + Nat.b2n (isSearching st))%nat.
Proof.
  unfold cancels, searches.
  destruct e as [| |peerId|userId o|userId a|userId c|userId s| |]; simpl.
  - lia.
  - unfold on_disconnect; simpl.
    destruct (cleanup_all_flags (set_flags false false false st)) as (_ & _ & -> & _).
    simpl. lia.
  - unfold on_match_found, getOrCreatePeerConnection.
    repeat case_match; simplify_eq/=; lia.
  - unfold on_webrtc_offer, getOrCreatePeerConnection.
    repeat case_match; rewrite ?cleanupPeerConnection_eq; simplify_eq/=; lia.
  - unfold on_webrtc_answer.
    repeat case_match; rewrite ?cleanupPeerConnection_eq; simplify_eq/=; lia.
  - unfold on_webrtc_candidate, queue_candidate.
    repeat case_match; simplify_eq/=; lia.
  - unfold on_connectionstatechange.
    repeat case_match; rewrite ?cleanupPeerConnection_eq; simplify_eq/=; lia.
  - unfold startSearching.
    destruct (isConnected st), (isSearching st) eqn:Hs; simpl; rewrite ?Hs; simpl; lia.
  - unfold stopSearching.
    destruct (isConnected st), (isSearching st) eqn:Hs, (isCancelling st);
      simpl; rewrite ?Hs; simpl; try lia.
    destruct (cleanup_all_flags (set_flags true false true st)) as (_ & _ & -> & _).
    simpl. lia.
Qed.

Lemma sent_search_balance evs st :
  (cancels (sent st evs) + Nat.b2n (isSearching (run st evs))
   ≤ searches (sent st evs) + Nat.b2n (isSearching st))%nat.
Proof.
  revert st. induction evs as [|e evs IH]; intros st; simpl; [lia|].
  pose proof (handle_search_balance e st) as Hstep.
  specialize (IH (handle e st).1).
  change (run st (e :: evs)) with (run (handle e st).1 evs).
  unfold cancels, searches in *. rewrite !List.filter_app, !length_app. lia.
Qed.

(** X8. Whatever happens to the provider, it never sends more
    [match:cancel] than it has sent [match:search], and while a search is
    shown as running it has sent strictly fewer. *)
Theorem cancels_never_exceed_searches me (evs : list Event) :
  (cancels (sent (init me) evs)
   + Nat.b2n (isSearching (run (init me) evs))
   ≤ searches (sent (init me) evs))%nat.
Proof. pose proof (sent_search_balance evs (init me)) as H. simpl in H. lia. Qed.

(** X9. When the connection kept for a peer fails or closes, the entries of
    that peer, and only of that peer, leave the three maps and nothing is
    sent; any other connection state is recorded on the connection and
    nothing else changes; a change for a peer without a connection is
    ignored. *)
Theorem connection_loss_tears_down_peer userId (s : RTCPeerConnectionState) st :
  (peerConnections st !! userId = None →
   on_connectionstatechange userId s st = (st, [])) ∧
  (∀ pc, peerConnections st !! userId = Some pc →
     (s = conn_failed ∨ s = conn_closed →
      on_connectionstatechange userId s st = (cleanupPeerConnection userId st, []) ∧
      authorized (cleanupPeerConnection userId st) userId = false ∧
      ∀ k, k ≠ userId →
        peerConnections (cleanupPeerConnection userId st) !! k = peerConnections st !! k ∧
        pendingCandidates (cleanupPeerConnection userId st) !! k = pendingCandidates st !! k ∧
        allowedPairs (cleanupPeerConnection userId st) !! k = allowedPairs st !! k) ∧
     (s ≠ conn_failed → s ≠ conn_closed →
      on_connectionstatechange userId s st =
        (set_peerConnections
           (<[userId := set_connectionState s pc]> (peerConnections st)) st, []))).
Proof.
  unfold on_connectionstatechange. split.
  - by intros ->.
  - intros pc ->. split.
    + intros Hs.
      assert (bool_decide (s = conn_failed) || bool_decide (s = conn_closed) = true)
        as -> by (destruct Hs as [->| ->]; done).
      rewrite !cleanupPeerConnection_eq; simpl. rewrite delete_insert_eq.
      split_and!; [done| |].
      * apply authorized_false; simpl. apply lookup_delete_eq.
      * intros k Hk. by rewrite !lookup_delete_ne.
    + intros H1 H2. by rewrite !bool_decide_eq_false_2.
Qed.

Lemma addIceCandidates_malformed cs pc :
  Exists (λ c, constructible c = false) cs → addIceCandidates cs pc = None.
Proof.
  intros Hex. revert pc. induction Hex as [c cs Hc|c cs Hex IH]; intros pc; simpl.
  - unfold addIceCandidate. by rewrite Hc.
  - destruct (addIceCandidate c pc); [apply IH|done].
Qed.

Lemma cleanup_after_store userId pc st :
  cleanupPeerConnection userId
    (set_peerConnections (<[userId := pc]> (peerConnections st)) st)
  = cleanupPeerConnection userId st.
Proof. rewrite !cleanupPeerConnection_eq; simpl. by rewrite delete_insert_eq. Qed.

(** X10. A negotiation message of the matched peer that cannot be applied
    ends the session with that peer: an offer whose type is not [offer], or
    an answer for which no connection is kept, removes the peer from the
    three maps, sends nothing, and leaves the peer unauthorized, so that
    its next messages are dropped. *)
Theorem negotiation_error_revokes_peer userId st :
  authorized st userId = true → peerConnections st !! userId = None →
  (∀ o, sdp_type o ≠ Some offer →
     on_webrtc_offer userId o st = (cleanupPeerConnection userId st, [])) ∧
  (∀ a, on_webrtc_answer userId a st = (cleanupPeerConnection userId st, [])) ∧
  authorized (cleanupPeerConnection userId st) userId = false.
Proof.
  intros Hauth Hpc. split_and!.
  - intros o Ho. unfold on_webrtc_offer, getOrCreatePeerConnection.
    rewrite Hauth, Hpc; simpl.
    assert (setRemoteDescription o new_connection = None) as ->.
    { unfold setRemoteDescription; simpl. by destruct (sdp_type o) as [[]|]. }
    by rewrite cleanup_after_store.
  - intros a. unfold on_webrtc_answer. by rewrite Hauth, Hpc.
  - apply authorized_false. rewrite cleanupPeerConnection_eq; simpl.
    apply lookup_delete_eq.
Qed.

(** X11. A candidate from which no [RTCIceCandidate] can be built (neither
    [sdpMid] nor [sdpMLineIndex]) is harmless when it arrives after the
    remote description, where the error is logged and the state stays as
    it is, but not when it was buffered: the offer that flushes the buffer
    is answered and the session is then torn down. *)
Theorem malformed_candidate userId c st :
  authorized st userId = true → constructible c = false →
  (∀ pc, peerConnections st !! userId = Some pc →
     is_Some (remoteDescription pc) →
     on_webrtc_candidate userId c st = (st, [])) ∧
  (∀ o, peerConnections st !! userId = None → sdp_type o = Some offer →
     c ∈ default [] (pendingCandidates st !! userId) →
     on_webrtc_offer userId o st =
       (cleanupPeerConnection userId st,
        [emit_webrtc_answer userId (generated answer)])).
Proof.
  intros Hauth Hc. split.
  - intros pc Hpc Hd. unfold on_webrtc_candidate. rewrite Hauth, Hpc; simpl.
    rewrite (bool_decide_eq_true_2 _ Hd). unfold addIceCandidate. by rewrite Hc.
  - intros o Hpc Ho Hin. unfold on_webrtc_offer, getOrCreatePeerConnection.
    rewrite Hauth, Hpc; simpl.
    destruct (answer_remote_offer o Ho) as (pc1 & pc2 & -> & -> & -> & _).
    rewrite addIceCandidates_malformed.
    + by rewrite cleanup_after_store.
    + apply Exists_exists. by exists c.
Qed.

(** X12. [getOrCreatePeerConnection] returns a connection that is not
    closed and is the one kept for the peer afterwards; asked again it
    returns the same connection and changes nothing; the entries of other
    peers, the buffers and the authorizations are not touched. *)
Theorem getOrCreatePeerConnection_stable userId st :
  let pc := (getOrCreatePeerConnection userId st).1 in
  let st1 := (getOrCreatePeerConnection userId st).2 in
  peerConnections st1 !! userId = Some pc ∧
  connectionState pc ≠ conn_closed ∧
  getOrCreatePeerConnection userId st1 = (pc, st1) ∧
  (∀ k, k ≠ userId → peerConnections st1 !! k = peerConnections st !! k) ∧
  pendingCandidates st1 = pendingCandidates st ∧
  allowedPairs st1 = allowedPairs st.
Proof.
  destruct (getOrCreatePeerConnection_spec userId st) as (pc & Heq & Hcase).
  rewrite Heq; simpl.
  assert (connectionState pc ≠ conn_closed) as Hopen.
  { destruct Hcase as [[-> _]|[_ ?]]; done. }
  split_and!; try done.
  - apply lookup_insert_eq.
  - unfold getOrCreatePeerConnection; simpl. rewrite lookup_insert_eq.
    by rewrite bool_decide_eq_false_2.
  - intros k Hk. by rewrite lookup_insert_ne.
Qed.
End socket_provider_more.

(** ** The media hook *)

Section media_hook_properties.
Import VideoContext UseMediaStream.
Implicit Types (h : Hook) (o : Outcome).

(** X13. When [getUserMedia] settles while the hook is mounted, loading is
    over and exactly one of [stream] and [error] is set: the stream
    received, or the message for the name of the error.  When it settles
    after the unmount, nothing is stored. *)
Theorem getMediaStream_settles o h :
  (mounted h = true →
   isLoading (state (getMediaStream o h)) = false ∧
   (stream (state (getMediaStream o h)) = None ↔
    is_Some (error (state (getMediaStream o h)))) ∧
   match o with
   | resolved s => stream (state (getMediaStream o h)) = Some s
   | rejected name => error (state (getMediaStream o h)) = Some (errorMessage name)
   end ∧
   streams (getMediaStream o h) = streams h) ∧
  (mounted h = false → getMediaStream o h = h).
Proof.
  unfold getMediaStream. split; intros Hm.
  - destruct o; rewrite Hm; simpl; split_and!; try done;
      split; try done; (by intros [? [=]]) || eauto.
  - destruct o; by rewrite !Hm.
Qed.

(** X14. The message shown for an error depends on its name alone: the
    five names the hook knows have messages of their own, different from
    one another and from the message every other name gets. *)
Theorem errorMessage_distinguishes (name1 name2 : string) :
  let known := ["NotAllowedError"; "NotFoundError"; "NotReadableError";
                "OverconstrainedError"; "TypeError"] in
  (errorMessage name1 = "Failed to access media devices" ↔ name1 ∉ known) ∧
  (errorMessage name1 = errorMessage name2 →
   name1 = name2 ∨ ((name1 ∉ known) ∧ (name2 ∉ known))).
Proof.
  intros known.
  assert (∀ n, n ∉ known ↔
               n ≠ "NotAllowedError" ∧ n ≠ "NotFoundError" ∧
               n ≠ "NotReadableError" ∧ n ≠ "OverconstrainedError" ∧
               n ≠ "TypeError") as Hknown.
  { intros n. unfold known. rewrite !not_elem_of_cons. split.
    - by intros (?&?&?&?&?&_).
    - intros (?&?&?&?&?). split_and!; try done. apply not_elem_of_nil. }
  rewrite !Hknown. unfold errorMessage. split.
  - repeat match goal with
           | |- context [String.eqb name1 ?k] =>
               destruct (String.eqb_spec name1 k) as [->|?];
                 [split; [intros [=]|intros (?&?&?&?&?); congruence]|]
           end.
    split; [intros _; by split_and!|done].
  - repeat match goal with
           | |- context [String.eqb name1 ?k] =>
               destruct (String.eqb_spec name1 k) as [->|?];
                 [repeat match goal with
                         | |- context [String.eqb name2 ?k'] =>
                             destruct (String.eqb_spec name2 k') as [->|?];
                               [(by left) || intros [=]|]
                         end;
                  intros [=]|]
           end.
    repeat match goal with
           | |- context [String.eqb name2 ?k'] =>
               destruct (String.eqb_spec name2 k') as [->|?]; [intros [=]|]
           end.
    intros _. by right.
Qed.

(** X15. Unmounting stops no track, the cleanup having been created by the
    first render, in which [stream] is still null; and a result of
    [getUserMedia] that arrives after the unmount is not stored. *)
Theorem unmount_keeps_tracks_and_drops_late_result o h :
  streams (unmount h) = streams h ∧
  state (unmount h) = state h ∧
  mounted (unmount h) = false ∧
  getMediaStream o (unmount h) = unmount h.
Proof.
  split_and!; try done. unfold getMediaStream, unmount, cleanup; simpl.
  by destruct o.
Qed.
End media_hook_properties.

(** ** The video provider, continued *)

Section video_flow_properties.
Import WebRTC VideoContext VideoProvider.
Implicit Types (r : Render) (w : World) (p : Provider).

Lemma poll_spec (ref_at : nat → option nat) remaining attempts :
  (attempts ≤ poll ref_at remaining attempts ≤ attempts + remaining)%nat ∧
  (∀ k, (attempts ≤ k < poll ref_at remaining attempts)%nat → ref_at k = None) ∧
  (ref_at (poll ref_at remaining attempts) = None →
   poll ref_at remaining attempts = (attempts + remaining)%nat).
Proof.
  revert attempts. induction remaining as [|remaining IH]; intros attempts; simpl.
  - destruct (ref_at attempts); split_and!; try lia; intros; lia.
  - destruct (ref_at attempts) eqn:Hat.
    + split_and!; try lia; intros; (lia || congruence).
    + destruct (IH (S attempts)) as (Hrange & Hnone & Hend).
      split_and!; try lia.
      * intros k Hk. destruct (decide (k = attempts)) as [->|?]; [done|].
        apply Hnone. lia.
      * intros Hn. rewrite Hend by done. lia.
Qed.

(** X16. The wait for the local stream sleeps at most 50 times (5 s); it
    stops at the first check that finds the stream, and it gives up, the
    handler throwing, exactly when none of its 51 checks finds it. *)
Theorem waitForLocalStream_bounded (ref_at : nat → option nat) :
  let attempts := (waitForLocalStream ref_at).1 in
  let found := (waitForLocalStream ref_at).2 in
  (attempts ≤ maxAttempts)%nat ∧
  found = ref_at attempts ∧
  (∀ k, (k < attempts)%nat → ref_at k = None) ∧
  (found = None ↔ ∀ k, (k ≤ maxAttempts)%nat → ref_at k = None).
Proof.
  unfold waitForLocalStream.
  destruct (poll_spec ref_at maxAttempts 0) as (Hrange & Hnone & Hend).
  set (n := poll ref_at maxAttempts 0) in *. clearbody n.
  unfold maxAttempts in *.
  destruct (ref_at 0%nat) as [s|] eqn:H0; cbn [fst snd].
  - split_and!; [lia|done|intros; lia|].
    split; [done|]. intros Hall. rewrite Hall in H0 by lia. done.
  - split_and!; [lia|done|intros; apply Hnone; lia|].
    split.
    + intros Hn k Hk. specialize (Hend Hn).
      destruct (decide (k = n)) as [->|?]; [done|].
      apply Hnone. lia.
    + intros Hall. apply Hall. lia.
Qed.

Lemma dom_connections_endChat r w :
  dom (connections (endChat r w)) = dom (connections w).
Proof.
  destruct (isEnding r) eqn:He.
  - by rewrite endChat_coalesced.
  - rewrite endChat_eq by done; simpl.
    destruct (peerConnection r); [|done]. apply dom_alter_L.
Qed.

Lemma cleanupPeerConnection_eq_world r w :
  VideoContext.cleanupPeerConnection r w =
    mkWorld
      (mkRender (socket (next w)) (isConnected (next w)) (remoteStream (next w))
         (isChatting (next w)) (isSearching (next w)) (isEnding (next w))
         (error (next w))
         (match peerConnection r with
          | Some _ => None
          | None => peerConnection (next w)
          end) [])
      (remoteVideo_mounted w) (remoteVideo_srcObject w) (remoteStreamTimeout w)
      (timers w)
      (match peerConnection r with
       | Some h => alter close h (connections w)
       | None => connections w
       end)
      (streams w) (emitted w).
Proof.
  unfold VideoContext.cleanupPeerConnection. by destruct (peerConnection r).
Qed.

(** What [setupPeerConnection] leaves when the socket is there and the
    helpers do not throw. *)
Lemma setupPeerConnection_ok cp tracks r peerId p pc0 :
  socket r = true → cp peerId = Some pc0 →
  (∀ s, localStreamRef p = Some s → is_Some (tracks pc0 s)) →
  ∃ h p1,
    setupPeerConnection cp tracks r peerId p = (p1, Some h) ∧
    (h ∉ dom (connections (world p))) ∧
    localStreamRef p1 = localStreamRef p ∧
    next (world p1) =
      mkRender (socket (next (world p))) (isConnected (next (world p)))
        (remoteStream (next (world p))) (isChatting (next (world p)))
        (isSearching (next (world p))) (isEnding (next (world p)))
        (error (next (world p))) (Some h) [] ∧
    connections (world p1) =
      <[h := match localStreamRef p with
             | Some s => default pc0 (tracks pc0 s)
             | None => pc0
             end]>
        (match peerConnection r with
         | Some h0 => alter close h0 (connections (world p))
         | None => connections (world p)
         end) ∧
    emitted (world p1) = emitted (world p) ∧
    timers (world p1) = timers (world p) ∧
    remoteStreamTimeout (world p1) = remoteStreamTimeout (world p).
Proof.
  intros Hs Hcp Hat. unfold setupPeerConnection, with_world. rewrite Hs, Hcp.
  cbn [negb world localStreamRef]. rewrite cleanupPeerConnection_eq_world. simpl.
  set (m := match peerConnection r with
            | Some h0 => alter close h0 (connections (world p))
            | None => connections (world p)
            end).
  assert (dom m = dom (connections (world p))) as Hdom.
  { unfold m. destruct (peerConnection r); [apply dom_alter_L|done]. }
  assert (fresh (dom m) ∉ dom (connections (world p))) as Hfresh.
  { rewrite <- Hdom. apply is_fresh. }
  destruct (localStreamRef p) as [s|] eqn:Hl.
  - destruct (Hat s eq_refl) as [pc1 Hpc1]. rewrite Hpc1; simpl.
    eexists _, _. split; [done|]. simpl. rewrite insert_insert_eq.
    split_and!; done.
  - eexists _, _. split; [done|]. simpl. split_and!; done.
Qed.

(** X17. [setupPeerConnection] replaces the connection: the one the render
    holds is closed, a new connection object is stored in state under a
    handle of its own, the buffer of candidates is emptied, and every
    other connection is left as it is; nothing is sent. *)
Theorem setupPeerConnection_replaces cp tracks r peerId p pc0 :
  socket r = true → cp peerId = Some pc0 →
  (∀ s, localStreamRef p = Some s → is_Some (tracks pc0 s)) →
  ∃ h p1,
    setupPeerConnection cp tracks r peerId p = (p1, Some h) ∧
    (h ∉ dom (connections (world p))) ∧
    peerConnection (next (world p1)) = Some h ∧
    is_Some (connections (world p1) !! h) ∧
    pendingCandidates (next (world p1)) = [] ∧
    (∀ h0 pc, peerConnection r = Some h0 →
       connections (world p) !! h0 = Some pc →
       connections (world p1) !! h0 = Some (close pc)) ∧
    (∀ k, k ≠ h → peerConnection r ≠ Some k →
       connections (world p1) !! k = connections (world p) !! k) ∧
    emitted (world p1) = emitted (world p).
Proof.
  intros Hs Hcp Hat.
  destruct (setupPeerConnection_ok cp tracks r peerId p pc0 Hs Hcp Hat)
    as (h & p1 & Heq & Hfresh & _ & Hnext & Hconn & Hem & _).
  exists h, p1. rewrite Hnext, Hconn. split_and!; try done.
  - rewrite lookup_insert_eq. eauto.
  - intros h0 pc Hr Hpc. rewrite Hr.
    assert (h ≠ h0).
    { intros ->. apply Hfresh, elem_of_dom. eauto. }
    by rewrite lookup_insert_ne, lookup_alter_eq, Hpc by done.
  - intros k Hk Hr. rewrite lookup_insert_ne by done.
    destruct (peerConnection r) as [h0|]; [|done].
    rewrite lookup_alter_ne; [done|congruence].
Qed.

(** X18. On a match, with the local stream at hand and the connection set
    up, the provider sends an offer exactly when the id of its socket
    orders strictly before the id of the peer: then it sends the one offer
    the helper made, to that peer; otherwise it sends nothing and waits.
    In both cases it shows the chat as started. *)
Theorem handleMatchFound_role cp tracks co r (socket_id peerId : string) p s pc0 pc1 :
  socket r = true → localStreamRef p = Some s →
  cp peerId = Some pc0 → tracks pc0 s = Some pc1 →
  let p' := handleMatchFound cp tracks co r socket_id peerId p in
  (String.ltb socket_id peerId = false →
   emitted (world p') = emitted (world p) ∧
   isChatting (next (world p')) = true ∧ isSearching (next (world p')) = false ∧
   ∃ h, peerConnection (next (world p')) = Some h ∧
        connections (world p') !! h = Some pc1) ∧
  (String.ltb socket_id peerId = true → ∀ o, (co pc1).2 = Some o →
   emitted (world p') = emitted (world p) ++ [emit_offer peerId o] ∧
   isChatting (next (world p')) = true ∧ isSearching (next (world p')) = false ∧
   ∃ h, peerConnection (next (world p')) = Some h ∧
        connections (world p') !! h = Some (co pc1).1).
Proof.
  intros Hs Hl Hcp Hat p'.
  destruct (setupPeerConnection_ok cp tracks r peerId p pc0 Hs Hcp)
    as (h & p1 & Heq & Hfresh & _ & Hnext & Hconn & Hem & _).
  { intros s' Hs'. rewrite Hl in Hs'. simplify_eq. eauto. }
  rewrite Hl, Hat in Hconn; simpl in Hconn.
  subst p'. unfold handleMatchFound. rewrite Hl, Heq. split.
  - intros ->. simpl. rewrite Hnext, Hem, Hconn; simpl.
    split_and!; try done. exists h. by rewrite lookup_insert_eq.
  - intros -> o Ho. rewrite Hconn, lookup_insert_eq.
    destruct (co pc1) as [pc2 o'] eqn:Hco. simpl in Ho. subst o'.
    simpl. rewrite Hnext, Hem; simpl. split_and!; try done.
    exists h. by rewrite lookup_insert_eq.
Qed.

(** X19. An offer that is missing or has no type ends the chat and creates
    no connection; a well-formed offer that arrives while the provider has
    no socket is dropped without any effect. *)
Theorem handleOffer_rejects cp tracks ca ai r (userId : string)
    (offer0 : option RTCSessionDescriptionInit) p :
  (offer0 = None ∨ (∃ o, offer0 = Some o ∧ sdp_type o = None) →
   handleOffer cp tracks ca ai r userId offer0 p = with_world (endChat r) p ∧
   dom (connections (world (handleOffer cp tracks ca ai r userId offer0 p)))
     = dom (connections (world p))) ∧
  (socket r = false → ∀ o, offer0 = Some o → is_Some (sdp_type o) →
   handleOffer cp tracks ca ai r userId offer0 p = p).
Proof.
  split.
  - intros Hbad.
    assert (handleOffer cp tracks ca ai r userId offer0 p = with_world (endChat r) p)
      as ->.
    { unfold handleOffer. destruct Hbad as [->|(o & -> & Ho)]; [done|].
      rewrite Ho. by rewrite bool_decide_eq_false_2 by (by intros [? [=]]). }
    split; [done|]. simpl. apply dom_connections_endChat.
  - intros Hs o -> Ho. unfold handleOffer, setupPeerConnection.
    rewrite (bool_decide_eq_true_2 _ Ho), Hs. done.
Qed.

(** X20. [startChat], no teardown being in progress in its render, sends
    [match:search] exactly when the socket is there and connected and a
    local stream is held or has just been acquired; the search is then
    shown as running.  In every other case no search is sent, the search
    is shown as stopped, and the error that was set has been cleared again
    by the [endChat] of the same [catch]; a [match:cancel] goes out if the
    socket is connected. *)
Theorem startChat_outcome r (media : MediaResult) p :
  isEnding r = false →
  let p' := startChat r media p in
  let ready := socket r && isConnected r in
  let media_ok :=
    bool_decide (is_Some (localStreamRef p))
    || match media with acquired _ => true | refused _ _ _ => false end in
  (ready && media_ok = true →
   emitted (world p') = emitted (world p) ++ [emit_match_search] ∧
   isSearching (next (world p')) = true ∧
   error (next (world p')) = None ∧
   is_Some (localStreamRef p')) ∧
  (ready && media_ok = false →
   emitted (world p') =
     emitted (world p) ++ (if ready then [emit_match_cancel] else []) ∧
   isSearching (next (world p')) = false ∧
   error (next (world p')) = None ∧
   localStreamRef p' = localStreamRef p).
Proof.
  intros Hend p' ready media_ok. subst p' ready media_ok.
  assert (∀ msg q,
            emitted (world (startChat_failed r msg q)) =
              emitted (world q)
              ++ (if socket r && isConnected r then [emit_match_cancel] else []) ∧
            isSearching (next (world (startChat_failed r msg q))) = false ∧
            error (next (world (startChat_failed r msg q))) = None ∧
            localStreamRef (startChat_failed r msg q) = localStreamRef q) as Hfail.
  { intros msg q. unfold startChat_failed, with_world; simpl.
    by rewrite endChat_eq. }
  unfold startChat. set (fail := startChat_failed r) in *. clearbody fail.
  destruct (socket r && isConnected r) eqn:Hready; simpl.
  - destruct (localStreamRef p) as [s|] eqn:Hl; simpl.
    + split; [|done]. intros _. rewrite Hl. eauto.
    + destruct media as [s|name message is_error]; simpl.
      * split; [|done]. intros _. eauto.
      * split; [done|]. intros _.
        destruct (String.eqb name "NotAllowedError");
          match goal with
          | |- context [fail ?m ?q] =>
              destruct (Hfail m q) as (-> & -> & -> & ->)
          end; done.
  - split; [done|]. intros _.
    destruct (Hfail "Socket connection not available" p) as (-> & -> & -> & ->).
    by rewrite app_nil_r.
Qed.

Lemma ontrack_localStreamRef s p : localStreamRef (ontrack s p) = localStreamRef p.
Proof. unfold ontrack. by repeat case_match. Qed.

Lemma ontrack_one_timer s p : one_timer p → one_timer (ontrack s p).
Proof.
  unfold one_timer, ontrack. intros Hone. repeat case_match; simpl; try done.
  all: try (rewrite bool_decide_eq_false_2 by done); set_solver.
Qed.

Lemma ontrack_schedules s p :
  one_timer p → localStreamRef p = None →
  ∃ t, timers (world (ontrack (Some s) p)) = {[t]} ∧
       display (ontrack (Some s) p) !! t = Some s.
Proof.
  unfold one_timer, ontrack. intros Hone ->.
  destruct (remoteStreamTimeout (world p)) as [t0|]; simpl;
    eexists; (split; [|apply lookup_insert_eq]); set_solver.
Qed.

Lemma tracks_keep_one_timer evs p :
  one_timer p →
  one_timer (fold_left (λ acc s, ontrack s acc) evs p) ∧
  localStreamRef (fold_left (λ acc s, ontrack s acc) evs p) = localStreamRef p.
Proof.
  revert p. induction evs as [|s evs IH]; intros p Hone; [done|]. simpl.
  destruct (IH (ontrack s p)) as [? ->]; [by apply ontrack_one_timer|].
  by rewrite ontrack_localStreamRef.
Qed.

(** X21. However many track events arrive in a row before the provider
    holds a local stream, one timeout is left scheduled; when it fires,
    the remote stream shown is that of the last event, and no timeout is
    left. *)
Theorem track_burst_shows_last_stream (evs : list (option nat)) (s : nat) p :
  one_timer p → localStreamRef p = None →
  let p' := fold_left (λ acc s, ontrack s acc) (evs ++ [Some s]) p in
  ∃ t, timers (world p') = {[t]} ∧
       remoteStream (next (world (timeout_fires t p'))) = Some s ∧
       timers (world (timeout_fires t p')) = ∅.
Proof.
  intros Hone Hl p'. subst p'. rewrite fold_left_app. cbn [fold_left].
  destruct (tracks_keep_one_timer evs p Hone) as [Hone' Hl'].
  rewrite Hl in Hl'.
  destruct (ontrack_schedules s _ Hone' Hl') as (t & Ht & Hd).
  exists t. split; [done|].
  set (q := ontrack (Some s) _) in *. clearbody q. unfold timeout_fires.
  rewrite Ht, bool_decide_eq_true_2 by set_solver. rewrite Hd. simpl.
  rewrite Ht. split; [done|]. set_solver.
Qed.

(** X22. [endChat] cancels the display that is pending: with at most the
    timeout of the ref scheduled, none is left after it, and a timeout
    that fires nevertheless changes nothing. *)
Theorem endChat_cancels_pending_display r p :
  one_timer p → isEnding r = false →
  timers (world (with_world (endChat r) p)) = ∅ ∧
  remoteStreamTimeout (world (with_world (endChat r) p)) = None ∧
  ∀ t, timeout_fires t (with_world (endChat r) p) = with_world (endChat r) p.
Proof.
  unfold one_timer. intros Hone Hend.
  assert (timers (world (with_world (endChat r) p)) = ∅) as Hnone.
  { simpl. rewrite endChat_eq by done; simpl.
    destruct (remoteStreamTimeout (world p)); set_solver. }
  split_and!; [done|by simpl; rewrite endChat_eq|].
  intros t. unfold timeout_fires. rewrite Hnone.
  by rewrite bool_decide_eq_false_2 by set_solver.
Qed.

(** X23. [handleAnswer] ends the chat when the render holds no connection,
    when the answer is missing or has no type, when the connection is in a
    state other than [stable] and [have-local-offer], and when the
    connection refuses the answer; in [stable] it leaves everything as it
    is. *)
Theorem handleAnswer_outcomes util r (a : option RTCSessionDescriptionInit) w :
  (peerConnection r = None ∨ a = None ∨ (∃ a', a = Some a' ∧ sdp_type a' = None) →
   handleAnswer util r a w = endChat r w) ∧
  (∀ h pc a', peerConnection r = Some h → connections w !! h = Some pc →
     a = Some a' → is_Some (sdp_type a') →
     (signalingState pc = stable → handleAnswer util r a w = w) ∧
     (signalingState pc ≠ stable → signalingState pc ≠ have_local_offer →
      handleAnswer util r a w = endChat r w) ∧
     (signalingState pc = have_local_offer → setRemoteDescription a' pc = None →
      handleAnswer util r a w = endChat r w)).
Proof.
  unfold handleAnswer. split.
  - intros [->|[->|(a' & -> & Ha)]]; [done|by destruct (peerConnection r)|].
    destruct (peerConnection r); [|done]. rewrite Ha.
    by rewrite bool_decide_eq_false_2 by (by intros [? [=]]).
  - intros h pc a' -> -> -> Ha. rewrite (bool_decide_eq_true_2 _ Ha); simpl.
    split_and!.
    + intros Hs. by rewrite (bool_decide_eq_true_2 _ Hs).
    + intros Hs1 Hs2. rewrite (bool_decide_eq_false_2 _ Hs1).
      by rewrite (bool_decide_eq_false_2 _ Hs2).
    + intros Hs ->. rewrite Hs. done.
Qed.

(** X25. [endChat] acts on the connection of the render it was created in
    and on no other: a connection that another render has stored since is
    neither closed nor, when the render held none, taken out of the
    state. *)
Theorem endChat_spares_later_connection r w :
  isEnding r = false →
  (∀ h, peerConnection r ≠ Some h →
     connections (endChat r w) !! h = connections w !! h) ∧
  (peerConnection r = None →
   peerConnection (next (endChat r w)) = peerConnection (next w)).
Proof.
  intros Hend. rewrite endChat_eq by done; simpl. split.
  - intros h Hh. destruct (peerConnection r) as [h0|]; [|done].
    rewrite lookup_alter_ne; [done|congruence].
  - by intros ->.
Qed.

(** X26. Unmounting the provider stops every track of the local stream and
    cancels the pending display, but it closes no connection and stops no
    track of the remote stream: its [endChat] is that of the first render,
    which holds neither.  The connection and the remote stream stay in the
    state as they were. *)
Theorem unmount_closes_no_connection (socket0 isConnected0 : bool) p :
  let p' := unmount socket0 isConnected0 p in
  connections (world p') = connections (world p) ∧
  peerConnection (next (world p')) = peerConnection (next (world p)) ∧
  remoteStream (next (world p')) = remoteStream (next (world p)) ∧
  remoteStreamTimeout (world p') = None ∧
  (∀ s, localStreamRef p ≠ Some s → streams (world p') !! s = streams (world p) !! s) ∧
  (∀ s st, localStreamRef p = Some s → streams (world p) !! s = Some st →
     ∃ st', streams (world p') !! s = Some st' ∧
            stream_id st' = stream_id st ∧
            length (tracks_live st') = length (tracks_live st) ∧
            Forall (λ live, live = false) (tracks_live st')) ∧
  emitted (world p') =
    emitted (world p) ++
    if socket0 && isConnected0 then [emit_match_cancel] else [].
Proof.
  intros p'. subst p'. unfold unmount, unmount_effect, with_world.
  cbn [localStreamRef world].
  pose proof (endChat_eq (first_render socket0 isConnected0) (world p) eq_refl)
    as Hend.
  set (w1 := endChat _ _) in *. clearbody w1. simpl in Hend. subst w1.
  destruct (localStreamRef p) as [l|]; simpl.
  - split_and!; try done.
    + intros s Hs. rewrite lookup_alter_ne; [done|congruence].
    + intros s st [= <-] Hst. exists (stop_tracks st).
      rewrite lookup_alter_eq, Hst. split_and!; try done.
      * simpl. by rewrite length_map.
      * simpl. apply Forall_forall. intros live Hin.
        apply list_elem_of_fmap in Hin as (? & -> & _). done.
  - split_and!; done.
Qed.

(** X27. A well-formed offer, with the socket there and the helpers not
    throwing: the provider replaces its connection, applies the offer to
    the new one, sends exactly one answer, to the sender of the offer, and
    hands the candidates the render had buffered to the connection.  When
    all of them are accepted the buffer is emptied and the chat is shown as
    started.  When one is refused, the answer has been sent all the same
    and the chat is ended, but the new connection is not closed: [endChat]
    acts on the connection of the render. *)
Theorem handleOffer_answers cp tracks ca ai r (userId : string) o p
    pc0 pcT pc1 pc2 pc3 a (ok : bool) :
  socket r = true → isEnding r = false → is_Some (sdp_type o) →
  (∀ h0, peerConnection r = Some h0 → is_Some (connections (world p) !! h0)) →
  cp userId = Some pc0 →
  match localStreamRef p with
  | Some s => tracks pc0 s
  | None => Some pc0
  end = Some pcT →
  setRemoteDescription o pcT = Some pc1 →
  ca pc1 o = (pc2, Some a) →
  flush ai (pendingCandidates r) pc2 = (pc3, ok) →
  let p' := handleOffer cp tracks ca ai r userId (Some o) p in
  ∃ h, (h ∉ dom (connections (world p))) ∧
       connections (world p') !! h = Some pc3 ∧
       pendingCandidates (next (world p')) = [] ∧
       isSearching (next (world p')) = false ∧
       if ok then
         emitted (world p') = emitted (world p) ++ [emit_answer userId a] ∧
         peerConnection (next (world p')) = Some h ∧
         isChatting (next (world p')) = true
       else
         emitted (world p') =
           emitted (world p) ++ [emit_answer userId a] ++
           (if isConnected r then [emit_match_cancel] else []) ∧
         isChatting (next (world p')) = false.
Proof.
  intros Hs Hend Ho Hheld Hcp Hat Hrd Hca Hflush p'.
  destruct (setupPeerConnection_ok cp tracks r userId p pc0 Hs Hcp)
    as (h & p1 & Heq & Hfresh & _ & Hnext & Hconn & Hem & _).
  { intros s Hl. rewrite Hl in Hat. eauto. }
  assert (connections (world p1) !! h = Some pcT) as Hh.
  { rewrite Hconn, lookup_insert_eq.
    destruct (localStreamRef p); [by rewrite Hat|by simplify_eq]. }
  assert (peerConnection r ≠ Some h) as Hold.
  { intros Hr. apply Hfresh, elem_of_dom. by apply Hheld. }
  subst p'. unfold handleOffer.
  rewrite (bool_decide_eq_true_2 _ Ho). cbn [negb].
  rewrite Heq, Hh, Hrd, Hca, Hflush.
  exists h. split; [done|]. destruct ok.
  - simpl. rewrite Hnext, Hem, lookup_insert_eq. by split_and!.
  - unfold with_world; cbn [world]. rewrite endChat_eq by done. simpl.
    rewrite Hs, Hem, <- app_assoc. simpl. split_and!; try done.
    destruct (peerConnection r) as [h0|]; [|apply lookup_insert_eq].
    rewrite lookup_alter_ne by congruence. apply lookup_insert_eq.
Qed.
End video_flow_properties.

(** ** More scenarios *)

Section more_scenarios.
Import WebRTC.

#[local] Ltac distinct_ids :=
  repeat (apply NoDup_cons; split;
          [rewrite ?not_elem_of_cons; repeat split;
           (discriminate || apply not_elem_of_nil)|]);
  apply NoDup_nil_2.

(** Alice, queued already, searches again in front of Bob and Carol. *)
Lemma search_pairs_with_earliest_witness :
  let st := Server.mkState ["alice"; "bob"; "carol"] ∅ in
  NoDup (Server.waitingQueue st) ∧
  Server.connected st "bob" = true ∧
  Server.match_search "alice" st =
    (Server.set_queue st ["carol"],
     [Server.to_socket "alice" (Server.match_found "bob");
      Server.to_socket "bob" (Server.match_found "alice")]).
Proof.
  intros st.
  assert (NoDup (Server.waitingQueue st)) as Hnd by (simpl; distinct_ids).
  assert (filter (λ x, x ≠ "alice") (Server.waitingQueue st) = ["bob"; "carol"])
    as Hq by reflexivity.
  assert (Server.connected st "bob" = true) as Hlive by reflexivity.
  destruct (search_pairs_with_earliest "alice" st "bob" ["carol"] Hnd Hq Hlive)
    as [Hm _].
  split; [exact Hnd|]. split; [exact Hlive|exact Hm].
Defined.

(** Three searches in a row: the third socket is the only one waiting. *)
Lemma at_most_one_waiting_witness :
  let evs := [Server.Search "alice"; Server.Search "bob"; Server.Search "carol"] in
  Server.well_formed Server.init evs ∧
  Server.waitingQueue (Server.run Server.init evs).1 = ["carol"] ∧
  (length (Server.waitingQueue (Server.run Server.init evs).1) ≤ 1)%nat.
Proof.
  intros evs.
  assert (Server.well_formed Server.init evs) as Hwf
    by (vm_compute; repeat split).
  split; [exact Hwf|]. split; [reflexivity|exact (at_most_one_waiting evs Hwf)].
Defined.

(** Alice searches and leaves; Bob and Carol, who search after that, are
    paired with each other. *)
Lemma disconnected_never_matched_witness :
  let evs1 := [Server.Search "alice"] in
  let evs2 := [Server.Search "bob"; Server.Search "carol"] in
  let st := (Server.run Server.init (evs1 ++ [Server.Disconnect "alice"])).1 in
  Server.well_formed Server.init (evs1 ++ Server.Disconnect "alice" :: evs2) ∧
  (Server.run st evs2).2 =
    [(Server.Search "bob", []);
     (Server.Search "carol",
      [Server.to_socket "carol" (Server.match_found "bob");
       Server.to_socket "bob" (Server.match_found "carol")])] ∧
  ∀ e out t other, (e, out) ∈ (Server.run st evs2).2 →
    Server.to_socket t (Server.match_found other) ∈ out →
    t ≠ "alice" ∧ other ≠ "alice".
Proof.
  intros evs1 evs2 st.
  assert (Server.well_formed Server.init
            (evs1 ++ Server.Disconnect "alice" :: evs2)) as Hwf
    by (vm_compute; repeat split).
  split; [exact Hwf|]. split; [reflexivity|].
  exact (disconnected_never_matched evs1 evs2 "alice" Hwf).
Defined.

Lemma search_then_cancel_restores_witness :
  Server.waitingQueue Server.init = [] ∧
  Server.waitingQueue (Server.match_search "alice" Server.init).1 = ["alice"] ∧
  Server.match_cancel "alice" (Server.match_search "alice" Server.init).1
    = (Server.init, [Server.to_socket "alice" Server.match_cancelled]).
Proof.
  assert (Server.waitingQueue Server.init = []) as Hq by reflexivity.
  destruct (search_then_cancel_restores "alice" Server.init Hq) as [_ Hback].
  split; [exact Hq|]. split; [reflexivity|exact Hback].
Defined.

(** Alice leaves while she waits in front of Bob. *)
Lemma disconnect_removes_silently_witness :
  let st := Server.mkState ["alice"; "bob"] ∅ in
  NoDup (Server.waitingQueue st) ∧
  Server.waitingQueue (Server.disconnect "alice" st).1 = ["bob"] ∧
  (Server.disconnect "alice" st).2 = [] ∧
  Server.connected (Server.disconnect "alice" st).1 "alice" = false.
Proof.
  intros st.
  assert (NoDup (Server.waitingQueue st)) as Hnd by (simpl; distinct_ids).
  destruct (disconnect_removes_silently "alice" st Hnd) as (Hout & _ & _ & Hgone & _).
  split; [exact Hnd|]. split; [reflexivity|]. split; [exact Hout|exact Hgone].
Defined.

Lemma matched_peers_distinct_witness :
  let st := Server.mkState ["alice"; "bob"] ∅ in
  NoDup (Server.waitingQueue st) ∧
  Server.to_socket "alice" (Server.match_found "bob")
    ∈ (Server.match_search "alice" st).2 ∧
  "bob" ≠ "alice".
Proof.
  intros st.
  assert (NoDup (Server.waitingQueue st)) as Hnd by (simpl; distinct_ids).
  assert (Server.to_socket "alice" (Server.match_found "bob")
            ∈ (Server.match_search "alice" st).2) as Hin
    by (apply list_elem_of_here).
  split; [exact Hnd|]. split; [exact Hin|].
  exact (matched_peers_distinct "alice" st "bob" Hnd Hin).
Defined.
(** A connected client whose search is running stops it. *)
Lemma search_controls_fire_once_witness :
  let st := SocketContext.run (SocketContext.init "alice")
              [SocketContext.Connect; SocketContext.StartSearching] in
  (SocketContext.stopSearching st).2 = [SocketContext.emit_match_cancel] ∧
  SocketContext.peerConnections (SocketContext.stopSearching st).1 = ∅ ∧
  SocketContext.isSearching (SocketContext.stopSearching st).1 = false ∧
  SocketContext.stopSearching (SocketContext.stopSearching st).1
    = ((SocketContext.stopSearching st).1, []).
Proof.
  intros st.
  destruct (search_controls_fire_once st) as (_ & _ & Hout & Hagain & Hstop).
  destruct (Hstop eq_refl) as [Hnone Hoff].
  split; [exact Hout|]. split; [exact Hnone|]. split; [exact Hoff|exact Hagain].
Defined.

(** The connection Alice keeps for Bob fails. *)
Lemma connection_loss_tears_down_peer_witness :
  let st := (SocketContext.on_match_found "bob" (SocketContext.init "alice")).1 in
  is_Some (SocketContext.peerConnections st !! "bob") ∧
  SocketContext.on_connectionstatechange "bob" conn_failed st
    = (SocketContext.cleanupPeerConnection "bob" st, []) ∧
  SocketContext.authorized (SocketContext.cleanupPeerConnection "bob" st) "bob"
    = false.
Proof.
  intros st.
  destruct (SocketContext.peerConnections st !! "bob") as [pc|] eqn:Hpc;
    [|discriminate Hpc].
  destruct (connection_loss_tears_down_peer "bob" conn_failed st) as [_ Hsome].
  destruct (Hsome pc Hpc) as [Hlost _].
  destruct (Hlost (or_introl eq_refl)) as (Hstep & Hrevoked & _).
  split; [by exists pc|]. split; [exact Hstep|exact Hrevoked].
Defined.

(** Bob, matched with Alice and waiting for her offer, receives an answer
    instead. *)
Lemma negotiation_error_revokes_peer_witness :
  let st := (SocketContext.on_match_found "alice" (SocketContext.init "bob")).1 in
  SocketContext.authorized st "alice" = true ∧
  SocketContext.peerConnections st !! "alice" = None ∧
  SocketContext.on_webrtc_answer "alice" (mkSdp (Some answer) "v=0") st
    = (SocketContext.cleanupPeerConnection "alice" st, []) ∧
  SocketContext.on_webrtc_offer "alice" (mkSdp (Some answer) "v=0") st
    = (SocketContext.cleanupPeerConnection "alice" st, []) ∧
  SocketContext.authorized (SocketContext.cleanupPeerConnection "alice" st) "alice"
    = false.
Proof.
  intros st.
  assert (SocketContext.authorized st "alice" = true) as Hauth by reflexivity.
  assert (SocketContext.peerConnections st !! "alice" = None) as Hpc by reflexivity.
  destruct (negotiation_error_revokes_peer "alice" st Hauth Hpc)
    as (Hoffer & Hanswer & Hrevoked).
  split; [exact Hauth|]. split; [exact Hpc|]. split; [apply Hanswer|].
  split; [apply Hoffer; discriminate|exact Hrevoked].
Defined.

(** Bob has buffered a candidate of Alice that names no media line, and
    then receives her offer. *)
Lemma malformed_candidate_witness :
  let st := SocketContext.run (SocketContext.init "bob")
              [SocketContext.MatchFound "alice";
               SocketContext.Candidate "alice" candidate_bare] in
  let o := mkSdp (Some offer) "v=0" in
  SocketContext.authorized st "alice" = true ∧
  constructible candidate_bare = false ∧
  SocketContext.pendingCandidates st !! "alice" = Some [candidate_bare] ∧
  SocketContext.on_webrtc_offer "alice" o st =
    (SocketContext.cleanupPeerConnection "alice" st,
     [SocketContext.emit_webrtc_answer "alice" (generated answer)]).
Proof.
  intros st o.
  assert (SocketContext.authorized st "alice" = true) as Hauth by reflexivity.
  assert (constructible candidate_bare = false) as Hc by reflexivity.
  destruct (malformed_candidate "alice" candidate_bare st Hauth Hc) as [_ Hflush].
  split; [exact Hauth|]. split; [exact Hc|]. split; [reflexivity|].
  apply Hflush; [reflexivity|reflexivity|apply list_elem_of_here].
Defined.

(** [getUserMedia] is refused for want of a camera while the hook is
    mounted. *)
Lemma getMediaStream_settles_witness :
  let h := UseMediaStream.mkHook UseMediaStream.initial true ∅ in
  let h' := UseMediaStream.getMediaStream (UseMediaStream.rejected "NotFoundError") h in
  UseMediaStream.mounted h = true ∧
  UseMediaStream.isLoading (UseMediaStream.state h') = false ∧
  UseMediaStream.error (UseMediaStream.state h') =
    Some "No camera or microphone found. Please check your device connections.".
Proof.
  intros h h'.
  assert (UseMediaStream.mounted h = true) as Hm by reflexivity.
  destruct (getMediaStream_settles (UseMediaStream.rejected "NotFoundError") h)
    as [Hmounted _].
  destruct (Hmounted Hm) as (Hloaded & _ & Herr & _).
  split; [exact Hm|]. split; [exact Hloaded|exact Herr].
Defined.

(** Two names the hook does not know get the same message. *)
Lemma errorMessage_distinguishes_witness :
  UseMediaStream.errorMessage "AbortError"
    = UseMediaStream.errorMessage "SecurityError" ∧
  "AbortError" ∉ ["NotAllowedError"; "NotFoundError"; "NotReadableError";
                  "OverconstrainedError"; "TypeError"].
Proof.
  destruct (errorMessage_distinguishes "AbortError" "SecurityError") as [Hdefault _].
  split; [reflexivity|]. apply Hdefault. reflexivity.
Defined.
(** The stream is found at the check after the third sleep. *)
Lemma waitForLocalStream_bounded_witness :
  let ref_at := λ k : nat, if Nat.ltb k 3 then None else Some 7%nat in
  VideoProvider.waitForLocalStream ref_at = (3%nat, Some 7%nat) ∧
  (3 ≤ VideoProvider.maxAttempts)%nat ∧
  ∀ k, (k < 3)%nat → ref_at k = None.
Proof.
  intros ref_at.
  destruct (waitForLocalStream_bounded ref_at) as (Hmax & _ & Hnone & _).
  split; [reflexivity|]. split; [exact Hmax|exact Hnone].
Defined.

(** A provider that holds no stream, no connection and no timeout. *)
Definition idle_render : VideoContext.Render :=
  VideoContext.mkRender true true None false false false None None [].

Definition idle_provider : VideoProvider.Provider :=
  VideoProvider.mkProvider
    (VideoContext.mkWorld idle_render false None None ∅ ∅ ∅ [])
    None None false None ∅.

(** A provider that holds the local stream and the connection of an
    earlier match. *)
Definition rematched_provider : VideoProvider.Provider :=
  VideoProvider.mkProvider provisional_answered_video
    (Some 1%nat) (Some 1%nat) false None ∅.

Definition fresh_connection (peerId : string) : option RTCPeerConnection :=
  Some new_connection.

Definition tracks_added (pc : RTCPeerConnection) (stream : nat)
    : option RTCPeerConnection := Some pc.

Definition offer_made (pc : RTCPeerConnection)
    : RTCPeerConnection * option RTCSessionDescriptionInit :=
  match createOffer pc with
  | Some o => (default pc (setLocalDescription o pc), Some o)
  | None => (pc, None)
  end.

Lemma setupPeerConnection_replaces_witness :
  let p := rematched_provider in
  let r := VideoContext.next (VideoProvider.world p) in
  VideoContext.socket r = true ∧
  ∃ h p1,
    VideoProvider.setupPeerConnection fresh_connection tracks_added r "bob" p
      = (p1, Some h) ∧
    VideoContext.peerConnection (VideoContext.next (VideoProvider.world p1))
      = Some h ∧
    signalingState <$>
      VideoContext.connections (VideoProvider.world p1) !! 0%nat = Some closed.
Proof.
  intros p r.
  assert (VideoContext.socket r = true) as Hs by reflexivity.
  destruct (setupPeerConnection_replaces fresh_connection tracks_added r "bob" p
              new_connection Hs eq_refl)
    as (h & p1 & Heq & _ & Hh & _ & _ & Hclose & _).
  { intros s _. by eexists. }
  split; [exact Hs|]. exists h, p1. split; [exact Heq|]. split; [exact Hh|].
  destruct (VideoContext.connections (VideoProvider.world p) !! 0%nat)
    as [pc|] eqn:Hpc; [|discriminate Hpc].
  rewrite (Hclose 0%nat pc eq_refl Hpc). simpl. by rewrite close_closed.
Defined.

(** The socket ["alice"] is matched with ["bob"]: it makes the offer. *)
Lemma handleMatchFound_role_witness :
  let p := rematched_provider in
  let r := VideoContext.next (VideoProvider.world p) in
  String.ltb "alice" "bob" = true ∧
  VideoContext.emitted
    (VideoProvider.world
       (VideoProvider.handleMatchFound fresh_connection tracks_added offer_made
          r "alice" "bob" p))
    = [VideoContext.emit_offer "bob" (generated offer)] ∧
  VideoContext.emitted
    (VideoProvider.world
       (VideoProvider.handleMatchFound fresh_connection tracks_added offer_made
          r "bob" "alice" p))
    = [].
Proof.
  intros p r.
  destruct (handleMatchFound_role fresh_connection tracks_added offer_made r
              "alice" "bob" p 1%nat new_connection new_connection
              eq_refl eq_refl eq_refl eq_refl) as [_ Hoffers].
  destruct (handleMatchFound_role fresh_connection tracks_added offer_made r
              "bob" "alice" p 1%nat new_connection new_connection
              eq_refl eq_refl eq_refl eq_refl) as [Hwaits _].
  destruct (Hoffers eq_refl (generated offer) eq_refl) as [Hsent _].
  destruct (Hwaits eq_refl) as [Hnone _].
  split; [reflexivity|]. split; [exact Hsent|exact Hnone].
Defined.

(** A message without an offer ends the chat. *)
Lemma handleOffer_rejects_witness :
  let p := rematched_provider in
  let r := VideoContext.next (VideoProvider.world p) in
  let p' := VideoProvider.handleOffer fresh_connection tracks_added
              (λ pc _, (pc, None)) (λ pc c, addIceCandidate c pc) r "bob" None p in
  p' = VideoProvider.with_world (VideoContext.endChat r) p ∧
  dom (VideoContext.connections (VideoProvider.world p'))
    = dom (VideoContext.connections (VideoProvider.world p)).
Proof.
  intros p r p'.
  destruct (handleOffer_rejects fresh_connection tracks_added
              (λ pc _, (pc, None)) (λ pc c, addIceCandidate c pc) r "bob" None p)
    as [Hbad _].
  exact (Hbad (or_introl eq_refl)).
Defined.

(** No camera is found when the chat is started. *)
Lemma startChat_outcome_witness :
  let p' := VideoProvider.startChat idle_render
              (VideoProvider.refused "NotFoundError" "Requested device not found" true)
              idle_provider in
  VideoContext.isEnding idle_render = false ∧
  VideoContext.emitted (VideoProvider.world p') = [VideoContext.emit_match_cancel] ∧
  VideoContext.isSearching (VideoContext.next (VideoProvider.world p')) = false ∧
  VideoContext.error (VideoContext.next (VideoProvider.world p')) = None.
Proof.
  intros p'.
  assert (VideoContext.isEnding idle_render = false) as Hend by reflexivity.
  destruct (startChat_outcome idle_render
              (VideoProvider.refused "NotFoundError" "Requested device not found" true)
              idle_provider Hend) as [_ Hfailed].
  destruct (Hfailed eq_refl) as (Hout & Hoff & Herr & _).
  split; [exact Hend|]. split; [exact Hout|]. split; [exact Hoff|exact Herr].
Defined.
(** Three track events and one without a stream, while the provider,
    answering an offer, holds no local stream. *)
Lemma track_burst_shows_last_stream_witness :
  let p' := fold_left (λ acc s, VideoProvider.ontrack s acc)
              [Some 1%nat; None; Some 2%nat; Some 3%nat] idle_provider in
  VideoProvider.one_timer idle_provider ∧
  VideoProvider.localStreamRef idle_provider = None ∧
  ∃ t, VideoContext.timers (VideoProvider.world p') = {[t]} ∧
       VideoContext.remoteStream
         (VideoContext.next (VideoProvider.world (VideoProvider.timeout_fires t p')))
         = Some 3%nat.
Proof.
  intros p'.
  assert (VideoProvider.one_timer idle_provider) as Hone by done.
  assert (VideoProvider.localStreamRef idle_provider = None) as Hl by reflexivity.
  destruct (track_burst_shows_last_stream [Some 1%nat; None; Some 2%nat] 3%nat
              idle_provider Hone Hl) as (t & Ht & Hshown & _).
  split; [exact Hone|]. split; [exact Hl|]. exists t. split; [exact Ht|exact Hshown].
Defined.

(** The chat is ended between a track event and its timeout. *)
Lemma endChat_cancels_pending_display_witness :
  let p := VideoProvider.ontrack (Some 1%nat) idle_provider in
  let p' := VideoProvider.with_world (VideoContext.endChat idle_render) p in
  VideoProvider.one_timer p ∧
  VideoContext.isEnding idle_render = false ∧
  VideoContext.timers (VideoProvider.world p) ≠ ∅ ∧
  VideoContext.timers (VideoProvider.world p') = ∅ ∧
  ∀ t, VideoProvider.timeout_fires t p' = p'.
Proof.
  intros p p'.
  assert (VideoProvider.one_timer p) as Hone by (by apply ontrack_one_timer).
  assert (VideoContext.isEnding idle_render = false) as Hend by reflexivity.
  destruct (endChat_cancels_pending_display idle_render p Hone Hend)
    as (Hnone & _ & Hlate).
  split; [exact Hone|]. split; [exact Hend|]. split; [|split; [exact Hnone|exact Hlate]].
  destruct (ontrack_schedules 1%nat idle_provider) as (t & Ht & _); [done|done|].
  fold p in Ht. rewrite Ht. apply non_empty_singleton_L.
Defined.

(** The final answer arrives after a provisional one. *)
Lemma handleAnswer_outcomes_witness :
  let w := provisional_answered_video in
  let r := VideoContext.next w in
  let a := mkSdp (Some answer) "v=0" in
  signalingState <$> VideoContext.connections w !! 0%nat = Some have_remote_pranswer ∧
  VideoContext.handleAnswer (λ pc c, addIceCandidate c pc) r (Some a) w
    = VideoContext.endChat r w.
Proof.
  intros w r a. split; [reflexivity|].
  destruct (VideoContext.connections w !! 0%nat) as [pc|] eqn:Hpc;
    [|discriminate Hpc].
  assert (signalingState pc = have_remote_pranswer) as Hstate
    by (injection Hpc as <-; reflexivity).
  destruct (handleAnswer_outcomes (λ pc c, addIceCandidate c pc) r (Some a) w)
    as [_ Hheld].
  destruct (Hheld 0%nat pc a eq_refl Hpc eq_refl (ex_intro _ answer eq_refl))
    as (_ & Hother & _).
  apply Hother; rewrite Hstate; discriminate.
Defined.

(** A candidate arrives while the provider holds no connection. *)
Lemma handleIceCandidate_by_remote_description_witness :
  let w := VideoProvider.world idle_provider in
  let w' := VideoContext.handleIceCandidate (λ pc c, addIceCandidate c pc)
              idle_render (Some candidate_1) w in
  VideoContext.peerConnection idle_render = None ∧
  VideoContext.pendingCandidates (VideoContext.next w') = [candidate_1] ∧
  VideoContext.connections w' = VideoContext.connections w.
Proof.
  intros w w'.
  destruct (handleIceCandidate_by_remote_description (λ pc c, addIceCandidate c pc)
              idle_render candidate_1 w) as [Hbuffered _].
  split; [reflexivity|]. exact (Hbuffered I).
Defined.

(** An [endChat] created by a render that held no connection runs after a
    connection has been stored. *)
Lemma endChat_spares_later_connection_witness :
  let w := provisional_answered_video in
  let w' := VideoContext.endChat idle_render w in
  VideoContext.isEnding idle_render = false ∧
  VideoContext.peerConnection (VideoContext.next w) = Some 0%nat ∧
  VideoContext.peerConnection (VideoContext.next w') = Some 0%nat ∧
  VideoContext.connections w' !! 0%nat = VideoContext.connections w !! 0%nat.
Proof.
  intros w w'.
  assert (VideoContext.isEnding idle_render = false) as Hend by reflexivity.
  destruct (endChat_spares_later_connection idle_render w Hend) as [Hkept Hstate].
  split; [exact Hend|]. split; [reflexivity|].
  split; [exact (Hstate eq_refl)|]. apply Hkept. discriminate.
Defined.
(** Bob's offer reaches a provider that holds the connection of an earlier
    match and has buffered one candidate. *)
Lemma handleOffer_answers_witness :
  let p := rematched_provider in
  let r := VideoContext.mkRender true true None true false false None
             (Some 0%nat) [candidate_1] in
  let o := mkSdp (Some offer) "v=0" in
  let ca := λ (pc : RTCPeerConnection) (_ : RTCSessionDescriptionInit),
              (default pc (setLocalDescription (generated answer) pc),
               Some (generated answer)) in
  let p' := VideoProvider.handleOffer fresh_connection tracks_added ca
              (λ pc c, addIceCandidate c pc) r "bob" (Some o) p in
  VideoContext.emitted (VideoProvider.world p')
    = [VideoContext.emit_answer "bob" (generated answer)] ∧
  ∃ h, h ≠ 0%nat ∧
       VideoContext.peerConnection (VideoContext.next (VideoProvider.world p'))
         = Some h ∧
       applied <$> VideoContext.connections (VideoProvider.world p') !! h
         = Some [SetRemote o; SetLocal (generated answer);
                 AddCandidate candidate_1].
Proof.
  intros p r o ca p'.
  destruct (handleOffer_answers fresh_connection tracks_added ca
              (λ pc c, addIceCandidate c pc) r "bob" o p
              new_connection new_connection
              (default new_connection (setRemoteDescription o new_connection))
              (ca (default new_connection (setRemoteDescription o new_connection)) o).1
              (VideoContext.flush (λ pc c, addIceCandidate c pc) [candidate_1]
                 (ca (default new_connection
                        (setRemoteDescription o new_connection)) o).1).1
              (generated answer) true
              eq_refl eq_refl (ex_intro _ offer eq_refl))
    as (h & Hfresh & Hpc & _ & _ & Hsent & Hstate & _);
    try reflexivity.
  { intros h0 [= <-]. by eexists. }
  split; [exact Hsent|]. exists h. split; [|split; [exact Hstate|]].
  - intros ->. apply Hfresh, elem_of_dom. by eexists.
  - fold p' in Hpc. rewrite Hpc. reflexivity.
Defined.
End more_scenarios.
